(** * The socket pool worker of OvenMediaEngine

    A shallow embedding of
    [src/projects/base/ovsocket/socket_pool/socket_pool_worker.cpp]:
    one worker owns one readiness multiplexer (epoll, or the SRT epoll),
    a map from native handles to sockets, four hand-over queues and the
    set of garbage-collection candidates.

    The [Socket] class, the operating system and the SRT library are
    collaborators of the worker.  A socket is an object of an abstract
    type with the methods the worker calls ([Socket.SocketClass]); the
    objects live in a heap indexed by their address, so that the handle
    map, the queues and the GC set alias the same object.  What a system
    call returns is an input of the operation that issues it.  Every call
    the worker makes into a collaborator is appended to [calls]; error
    and warning messages and failed assertions are appended to [log]. *)

From stdpp Require Import gmap list sorting functions strings.

Local Open Scope Z_scope.

(** ** Constants of the system headers *)

Definition InvalidSocket : Z := -1.
Definition SRT_INVALID_SOCK : Z := -1.

Definition EPOLLIN : Z := 0x001.
Definition EPOLLOUT : Z := 0x004.
Definition EPOLLERR : Z := 0x008.
Definition EPOLLHUP : Z := 0x010.
Definition EPOLLRDHUP : Z := 0x2000.

Definition SRT_EPOLL_IN : Z := 0x1.
Definition SRT_EPOLL_OUT : Z := 0x4.
Definition SRT_EPOLL_ERR : Z := 0x8.

Definition EINTR : Z := 4.
Definition EBADF : Z := 9.

(** [OV_CHECK_FLAG(target, flag)] of the base library: all bits of [flag]
    are set in [target]. *)
Definition OV_CHECK_FLAG (target flag : Z) : bool :=
  bool_decide (Z.land target flag = flag).

(** ** Plain data *)

(** The address of a [Socket] object; a null pointer is [None]. *)
Definition SocketPtr : Type := positive.

Inductive SocketType := Unknown | Udp | Tcp | Srt.
Inductive BlockingMode := Blocking | NonBlocking.
Inductive SocketState := Closed | Connecting | Connected | Disconnected | Error.

(** The three places where the worker builds a [SocketError]:
    the connection timeout (line 241), a non-zero [SO_ERROR] (line 340)
    and an unreadable [SO_ERROR] (line 346, with the event's flags). *)
Inductive SocketError :=
| ConnectionTimedOutByWorker
| SocketErrorOccurred (so_error : Z)
| UnknownErrorOccurred (events : Z).

(** [ov::Error] as the worker builds it: from [errno], from the SRT
    library's last error, or from a message alone. *)
Inductive OvError :=
| ErrorFromErrno (code : Z)
| ErrorFromSrt (code : Z)
| ErrorMessage (message : string).

Definition GetCode (e : OvError) : option Z :=
  match e with
  | ErrorFromErrno c | ErrorFromSrt c => Some c
  | ErrorMessage _ => None
  end.

Inductive SRT_SOCKSTATUS :=
| SRTS_INIT | SRTS_OPENED | SRTS_LISTENING | SRTS_CONNECTING | SRTS_CONNECTED
| SRTS_BROKEN | SRTS_CLOSING | SRTS_CLOSED | SRTS_NONEXIST.

Record epoll_event := mk_epoll_event {
  events : Z;
  data_ptr : option SocketPtr
}.

Record SRT_EPOLL_EVENT := mk_srt_event {
  fd : Z;
  srt_events : Z
}.

#[global] Instance SocketType_eq_dec : EqDecision SocketType.
Proof. solve_decision. Defined.
#[global] Instance BlockingMode_eq_dec : EqDecision BlockingMode.
Proof. solve_decision. Defined.
#[global] Instance SocketState_eq_dec : EqDecision SocketState.
Proof. solve_decision. Defined.
#[global] Instance SocketError_eq_dec : EqDecision SocketError.
Proof. solve_decision. Defined.

(** ** The socket, as the worker sees it *)

Module Socket.

(** [Socket::DispatchResult] *)
Inductive DispatchResult := Dispatched | PartialDispatched | Error.

(** The methods of [ov::Socket] (and of its [SocketPoolEventInterface])
    that the worker calls.  Queries read the object; the others return
    the object after the call. *)
Class SocketClass (S : Type) := {
  GetNativeHandle : S → Z;
  GetState : S → SocketState;
  GetBlockingMode : S → BlockingMode;
  IsClosable : S → bool;
  NeedToWaitFirstEpollEvent : S → bool;
  HasCommand : S → bool;
  HasExpiredCommand : S → bool;
  (** [GetSockOpt(SO_ERROR, &value)]: [None] when the call fails *)
  GetSockOpt_SO_ERROR : S → option Z;
  SetFirstEpollEventReceived : S → S;
  SetEndOfStream : S → S;
  SetState : SocketState → S → S;
  CloseWithState : SocketState → S → S;
  CloseInternal : S → S;
  DispatchEvents : S → DispatchResult * S;
  OnConnectedEvent : option SocketError → S → S;
  OnDataAvailableEvent : S → S
}.

End Socket.

(** ** Calls into the collaborators, and the log *)

Inductive Call :=
| CallSetFirstEpollEventReceived (s : SocketPtr)
| CallSetEndOfStream (s : SocketPtr)
| CallSetState (s : SocketPtr) (state : SocketState)
| CallCloseWithState (s : SocketPtr) (state : SocketState)
| CallCloseInternal (s : SocketPtr)
| CallDispatchEvents (s : SocketPtr)
| CallOnConnectedEvent (s : SocketPtr) (error : option SocketError)
| CallOnDataAvailableEvent (s : SocketPtr)
| Sys_epoll_ctl_add (epfd native_handle : Z)
| Sys_epoll_ctl_del (epfd native_handle : Z)
| Sys_srt_epoll_add_usock (eid native_handle : Z)
| Sys_srt_epoll_remove_usock (eid native_handle : Z)
| Sys_epoll_wait (epfd : Z)
| Sys_srt_epoll_uwait (eid : Z)
| Sys_close (epfd : Z)
| Sys_srt_close (eid : Z).

#[global] Instance Call_eq_dec : EqDecision Call.
Proof. solve_decision. Defined.

Inductive LogEntry :=
| LogError (message : string)
| LogWarning (message : string)
| AssertionFailed (message : string).

(** The delay queue behind [EnqueueToCheckConnectionTimeOut]: whether its
    thread runs, and the callbacks not yet fired (socket, milliseconds). *)
Record DelayQueue := mkDelayQueue {
  running : bool;
  pending : list (SocketPtr * Z)
}.

(** ** The worker and its world *)

Section World.

Context {S : Type}.

Record World := mkWorld {
  (** what [_pool->GetType()] answers *)
  pool_type : SocketType;
  _epoll : Z;
  _srt_epoll : Z;
  _stop_epoll_thread : bool;
  (** [_epoll_thread.joinable()] *)
  _epoll_thread : bool;
  _socket_count : Z;
  (** handle to socket; [operator[]] can leave a null pointer as value *)
  _socket_map : gmap Z (option SocketPtr);
  _sockets_to_insert : list SocketPtr;
  _sockets_to_delete : list SocketPtr;
  _sockets_to_dispatch : list SocketPtr;
  _connection_timed_out_queue : list SocketPtr;
  _connection_callback_queue : DelayQueue;
  _gc_candidates : gmap Z SocketPtr;
  _epoll_events : list epoll_event;
  _last_epoll_event_count : Z;
  (** the socket objects, by address *)
  heap : SocketPtr → S;
  calls : list Call;
  log : list LogEntry
}.

Definition set_epoll (v : Z) (w : World) : World :=
  mkWorld (pool_type w)
    v (_srt_epoll w) (_stop_epoll_thread w) (_epoll_thread w) (_socket_count w) (_socket_map w) (_sockets_to_insert w) (_sockets_to_delete w) (_sockets_to_dispatch w) (_connection_timed_out_queue w) (_connection_callback_queue w) (_gc_candidates w) (_epoll_events w) (_last_epoll_event_count w) (heap w) (calls w) (log w).
Definition set_srt_epoll (v : Z) (w : World) : World :=
  mkWorld (pool_type w) (_epoll w)
    v (_stop_epoll_thread w) (_epoll_thread w) (_socket_count w) (_socket_map w) (_sockets_to_insert w) (_sockets_to_delete w) (_sockets_to_dispatch w) (_connection_timed_out_queue w) (_connection_callback_queue w) (_gc_candidates w) (_epoll_events w) (_last_epoll_event_count w) (heap w) (calls w) (log w).
Definition set_stop_epoll_thread (v : bool) (w : World) : World :=
  mkWorld (pool_type w) (_epoll w) (_srt_epoll w)
    v (_epoll_thread w) (_socket_count w) (_socket_map w) (_sockets_to_insert w) (_sockets_to_delete w) (_sockets_to_dispatch w) (_connection_timed_out_queue w) (_connection_callback_queue w) (_gc_candidates w) (_epoll_events w) (_last_epoll_event_count w) (heap w) (calls w) (log w).
Definition set_epoll_thread (v : bool) (w : World) : World :=
  mkWorld (pool_type w) (_epoll w) (_srt_epoll w) (_stop_epoll_thread w)
    v (_socket_count w) (_socket_map w) (_sockets_to_insert w) (_sockets_to_delete w) (_sockets_to_dispatch w) (_connection_timed_out_queue w) (_connection_callback_queue w) (_gc_candidates w) (_epoll_events w) (_last_epoll_event_count w) (heap w) (calls w) (log w).
Definition set_socket_count (v : Z) (w : World) : World :=
  mkWorld (pool_type w) (_epoll w) (_srt_epoll w) (_stop_epoll_thread w) (_epoll_thread w)
    v (_socket_map w) (_sockets_to_insert w) (_sockets_to_delete w) (_sockets_to_dispatch w) (_connection_timed_out_queue w) (_connection_callback_queue w) (_gc_candidates w) (_epoll_events w) (_last_epoll_event_count w) (heap w) (calls w) (log w).
Definition set_socket_map (v : gmap Z (option SocketPtr)) (w : World) : World :=
  mkWorld (pool_type w) (_epoll w) (_srt_epoll w) (_stop_epoll_thread w) (_epoll_thread w) (_socket_count w)
    v (_sockets_to_insert w) (_sockets_to_delete w) (_sockets_to_dispatch w) (_connection_timed_out_queue w) (_connection_callback_queue w) (_gc_candidates w) (_epoll_events w) (_last_epoll_event_count w) (heap w) (calls w) (log w).
Definition set_sockets_to_insert (v : list SocketPtr) (w : World) : World :=
  mkWorld (pool_type w) (_epoll w) (_srt_epoll w) (_stop_epoll_thread w) (_epoll_thread w) (_socket_count w) (_socket_map w)
    v (_sockets_to_delete w) (_sockets_to_dispatch w) (_connection_timed_out_queue w) (_connection_callback_queue w) (_gc_candidates w) (_epoll_events w) (_last_epoll_event_count w) (heap w) (calls w) (log w).
Definition set_sockets_to_delete (v : list SocketPtr) (w : World) : World :=
  mkWorld (pool_type w) (_epoll w) (_srt_epoll w) (_stop_epoll_thread w) (_epoll_thread w) (_socket_count w) (_socket_map w) (_sockets_to_insert w)
    v (_sockets_to_dispatch w) (_connection_timed_out_queue w) (_connection_callback_queue w) (_gc_candidates w) (_epoll_events w) (_last_epoll_event_count w) (heap w) (calls w) (log w).
Definition set_sockets_to_dispatch (v : list SocketPtr) (w : World) : World :=
  mkWorld (pool_type w) (_epoll w) (_srt_epoll w) (_stop_epoll_thread w) (_epoll_thread w) (_socket_count w) (_socket_map w) (_sockets_to_insert w) (_sockets_to_delete w)
    v (_connection_timed_out_queue w) (_connection_callback_queue w) (_gc_candidates w) (_epoll_events w) (_last_epoll_event_count w) (heap w) (calls w) (log w).
Definition set_connection_timed_out_queue (v : list SocketPtr) (w : World) : World :=
  mkWorld (pool_type w) (_epoll w) (_srt_epoll w) (_stop_epoll_thread w) (_epoll_thread w) (_socket_count w) (_socket_map w) (_sockets_to_insert w) (_sockets_to_delete w) (_sockets_to_dispatch w)
    v (_connection_callback_queue w) (_gc_candidates w) (_epoll_events w) (_last_epoll_event_count w) (heap w) (calls w) (log w).
Definition set_connection_callback_queue (v : DelayQueue) (w : World) : World :=
  mkWorld (pool_type w) (_epoll w) (_srt_epoll w) (_stop_epoll_thread w) (_epoll_thread w) (_socket_count w) (_socket_map w) (_sockets_to_insert w) (_sockets_to_delete w) (_sockets_to_dispatch w) (_connection_timed_out_queue w)
    v (_gc_candidates w) (_epoll_events w) (_last_epoll_event_count w) (heap w) (calls w) (log w).
Definition set_gc_candidates (v : gmap Z SocketPtr) (w : World) : World :=
  mkWorld (pool_type w) (_epoll w) (_srt_epoll w) (_stop_epoll_thread w) (_epoll_thread w) (_socket_count w) (_socket_map w) (_sockets_to_insert w) (_sockets_to_delete w) (_sockets_to_dispatch w) (_connection_timed_out_queue w) (_connection_callback_queue w)
    v (_epoll_events w) (_last_epoll_event_count w) (heap w) (calls w) (log w).
Definition set_epoll_events (v : list epoll_event) (w : World) : World :=
  mkWorld (pool_type w) (_epoll w) (_srt_epoll w) (_stop_epoll_thread w) (_epoll_thread w) (_socket_count w) (_socket_map w) (_sockets_to_insert w) (_sockets_to_delete w) (_sockets_to_dispatch w) (_connection_timed_out_queue w) (_connection_callback_queue w) (_gc_candidates w)
    v (_last_epoll_event_count w) (heap w) (calls w) (log w).
Definition set_last_epoll_event_count (v : Z) (w : World) : World :=
  mkWorld (pool_type w) (_epoll w) (_srt_epoll w) (_stop_epoll_thread w) (_epoll_thread w) (_socket_count w) (_socket_map w) (_sockets_to_insert w) (_sockets_to_delete w) (_sockets_to_dispatch w) (_connection_timed_out_queue w) (_connection_callback_queue w) (_gc_candidates w) (_epoll_events w)
    v (heap w) (calls w) (log w).
Definition set_heap (v : SocketPtr → S) (w : World) : World :=
  mkWorld (pool_type w) (_epoll w) (_srt_epoll w) (_stop_epoll_thread w) (_epoll_thread w) (_socket_count w) (_socket_map w) (_sockets_to_insert w) (_sockets_to_delete w) (_sockets_to_dispatch w) (_connection_timed_out_queue w) (_connection_callback_queue w) (_gc_candidates w) (_epoll_events w) (_last_epoll_event_count w)
    v (calls w) (log w).
Definition set_calls (v : list Call) (w : World) : World :=
  mkWorld (pool_type w) (_epoll w) (_srt_epoll w) (_stop_epoll_thread w) (_epoll_thread w) (_socket_count w) (_socket_map w) (_sockets_to_insert w) (_sockets_to_delete w) (_sockets_to_dispatch w) (_connection_timed_out_queue w) (_connection_callback_queue w) (_gc_candidates w) (_epoll_events w) (_last_epoll_event_count w) (heap w)
    v (log w).
Definition set_log (v : list LogEntry) (w : World) : World :=
  mkWorld (pool_type w) (_epoll w) (_srt_epoll w) (_stop_epoll_thread w) (_epoll_thread w) (_socket_count w) (_socket_map w) (_sockets_to_insert w) (_sockets_to_delete w) (_sockets_to_dispatch w) (_connection_timed_out_queue w) (_connection_callback_queue w) (_gc_candidates w) (_epoll_events w) (_last_epoll_event_count w) (heap w) (calls w)
    v .

End World.

Arguments World : clear implicits.

(** Iteration over a [std::map<int, V>] visits the keys in ascending
    order. *)
Definition key_le {V : Type} (a b : Z * V) : Prop := a.1 ≤ b.1.

#[global] Instance key_le_dec {V : Type} (a b : Z * V) : Decision (key_le a b).
Proof. unfold key_le. apply _. Defined.

Definition in_key_order {V : Type} (m : gmap Z V) : list (Z * V) :=
  merge_sort key_le (map_to_list m).

(** What a wait on the multiplexer hands back: the return value, the
    error code left behind ([errno], or the SRT library's last error), the
    records written by [epoll_wait] or by [srt_epoll_uwait], and what
    [srt_getsockstate] answers for a handle. *)
Record WaitOutcome := mkWaitOutcome {
  wait_count : Z;
  wait_error : Z;
  epoll_records : list epoll_event;
  srt_records : list SRT_EPOLL_EVENT;
  srt_getsockstate : Z → SRT_SOCKSTATUS
}.

(** [buffer[index + i] = records[i]], for every record. *)
Fixpoint store_events (index : nat) (records buffer : list epoll_event)
  : list epoll_event :=
  match records with
  | [] => buffer
  | e :: records => store_events (Datatypes.S index) records (<[index := e]> buffer)
  end.

Section Worker.

Context {S : Type} `{!Socket.SocketClass S}.

Implicit Types (w : World S) (s : SocketPtr).

(** *** Bookkeeping of calls and messages *)

Definition record (c : Call) w : World S := set_calls (calls w ++ [c]) w.

Definition logs (e : LogEntry) w : World S := set_log (log w ++ [e]) w.

(** A call of a method that changes the object at address [s]. *)
Definition invoke s (c : Call) (method : S → S) w : World S :=
  record c (set_heap (<[s := method (heap w s)]> (heap w)) w).

Definition call_DispatchEvents s w : Socket.DispatchResult * World S :=
  let r := Socket.DispatchEvents (heap w s) in
  (r.1, invoke s (CallDispatchEvents s) (λ _, r.2) w).

(** *** Accessors *)

Definition GetType w : SocketType := pool_type w.

Definition GetNativeHandle w : Z :=
  match GetType w with
  | Srt => _srt_epoll w
  | _ => _epoll w
  end.

(** *** Queues *)

Definition EnqueueToDispatchLater s w : World S :=
  set_sockets_to_dispatch (_sockets_to_dispatch w ++ [s]) w.

Definition EnqueueToCheckConnectionTimeOut s (timeout_msec : Z) w : World S :=
  let q := _connection_callback_queue w in
  set_connection_callback_queue
    (mkDelayQueue (running q) (pending q ++ [(s, timeout_msec)])) w.

(** *** Registration: [AddToEpoll], [DeleteFromEpoll]

    [backend] is the outcome of the system call: [None] when it
    succeeds, the error code otherwise. *)

Definition AddToEpoll (backend : option Z) s w : bool * World S :=
  let w0 :=
    if bool_decide (GetNativeHandle w = InvalidSocket)
    then logs (AssertionFailed "GetNativeHandle() != InvalidSocket") w
    else w in
  let native_handle := Socket.GetNativeHandle (heap w0 s) in
  let '(error, w1) :=
    match GetType w0 with
    | Tcp | Udp =>
        (ErrorFromErrno <$> backend,
         record (Sys_epoll_ctl_add (_epoll w0) native_handle) w0)
    | Srt =>
        (ErrorFromSrt <$> backend,
         record (Sys_srt_epoll_add_usock (_srt_epoll w0) native_handle) w0)
    | Unknown => (Some (ErrorMessage "Not implemented"), w0)
    end in
  match error with
  | None => (true, set_sockets_to_insert (_sockets_to_insert w1 ++ [s]) w1)
  | Some _ => (false, logs (LogError "Could not add to epoll") w1)
  end.

Definition DeleteFromEpoll (backend : option Z) s w : bool * World S :=
  if bool_decide (GetNativeHandle w = InvalidSocket) then
    (false,
     logs (AssertionFailed "GetNativeHandle() != InvalidSocket")
       (logs (LogError "Epoll is not initialized") w))
  else
    let native_handle := Socket.GetNativeHandle (heap w s) in
    let '(error, w1) :=
      match GetType w with
      | Udp | Tcp =>
          (ErrorFromErrno <$> backend,
           record (Sys_epoll_ctl_del (_epoll w) native_handle) w)
      | Srt =>
          (ErrorFromSrt <$> backend,
           record (Sys_srt_epoll_remove_usock (_srt_epoll w) native_handle) w)
      | Unknown => (Some (ErrorMessage "Not implemented"), w)
      end in
    match error with
    | None => (true, set_sockets_to_delete (_sockets_to_delete w1 ++ [s]) w1)
    | Some e =>
        if bool_decide (GetCode e = Some EBADF)
        then (false, w1)
        else (false, logs (LogError "Could not delete the socket from epoll") w1)
    end.

(** *** [MergeSocketList] *)

Definition merge_insert (objects : SocketPtr → S)
    (m : gmap Z (option SocketPtr)) s : gmap Z (option SocketPtr) :=
  <[Socket.GetNativeHandle (objects s) := Some s]> m.

Definition merge_delete (objects : SocketPtr → S)
    (m : gmap Z (option SocketPtr)) s : gmap Z (option SocketPtr) :=
  delete (Socket.GetNativeHandle (objects s)) m.

Definition MergeSocketList w : World S :=
  let w1 :=
    set_sockets_to_insert []
      (set_socket_map
         (foldl (merge_insert (heap w)) (_socket_map w) (_sockets_to_insert w))
         w) in
  set_sockets_to_delete []
    (set_socket_map
       (foldl (merge_delete (heap w1)) (_socket_map w1) (_sockets_to_delete w1))
       w1).

(** *** [GarbageCollection]

    [backend] gives the outcome of the deregistration of a handle. *)

Definition gc_visit (backend : Z → option Z) w (candidate : Z * SocketPtr)
  : World S :=
  let '(key, s) := candidate in
  if Socket.HasExpiredCommand (heap w s) then
    let w1 := logs (LogWarning "Failed to send data - garbage collection") w in
    let w2 := invoke s (CallCloseInternal s) Socket.CloseInternal w1 in
    let w3 := (call_DispatchEvents s w2).2 in
    let w4 :=
      (DeleteFromEpoll (backend (Socket.GetNativeHandle (heap w3 s))) s w3).2 in
    set_gc_candidates (delete key (_gc_candidates w4)) w4
  else if negb (Socket.HasCommand (heap w s)) then
    set_gc_candidates (delete key (_gc_candidates w)) w
  else w.

Definition GarbageCollection (backend : Z → option Z) w : World S :=
  foldl (gc_visit backend) w (in_key_order (_gc_candidates w)).

(** *** [CallbackTimedOutConnections] *)

Definition timed_out_visit w s : World S :=
  if bool_decide (Socket.GetState (heap w s) = Connecting) then
    invoke s (CallOnConnectedEvent s (Some ConnectionTimedOutByWorker))
      (Socket.OnConnectedEvent (Some ConnectionTimedOutByWorker)) w
  else w.

Definition CallbackTimedOutConnections w : World S :=
  foldl timed_out_visit
    (set_connection_timed_out_queue [] w) (_connection_timed_out_queue w).

(** *** [ConvertSrtEventToEpollEvent] and [EpollWait] *)

Definition or_flag (condition : bool) (flag events : Z) : Z :=
  if condition then Z.lor events flag else events.

Definition ConvertSrtEventToEpollEvent
    (status : SRT_SOCKSTATUS) (srt_event : SRT_EPOLL_EVENT) w
  : epoll_event * World S :=
  let srt_socket := fd srt_event in
  (* _socket_map[srt_socket].get() *)
  let '(ptr, w1) :=
    match _socket_map w !! srt_socket with
    | Some p => (p, w)
    | None => (None, set_socket_map (<[srt_socket := None]> (_socket_map w)) w)
    end in
  let e0 := 0 in
  let e1 := or_flag (OV_CHECK_FLAG (srt_events srt_event) SRT_EPOLL_IN) EPOLLIN e0 in
  let e2 := or_flag (OV_CHECK_FLAG (srt_events srt_event) SRT_EPOLL_OUT) EPOLLOUT e1 in
  let e3 := or_flag (OV_CHECK_FLAG (srt_events srt_event) SRT_EPOLL_ERR) EPOLLERR e2 in
  let e4 :=
    match status with
    | SRTS_LISTENING => e3
    | SRTS_NONEXIST => Z.lor e3 EPOLLHUP
    | SRTS_BROKEN => Z.lor e3 EPOLLHUP
    | SRTS_CLOSED => Z.lor e3 EPOLLHUP
    | SRTS_CONNECTED => e3
    | _ => e3
    end in
  (mk_epoll_event e4 ptr, w1).

(** The loop of lines 615-618, from [index] on. *)
Fixpoint convert_srt_events (status : Z → SRT_SOCKSTATUS) (index : nat)
    (records : list SRT_EPOLL_EVENT) w : World S :=
  match records with
  | [] => w
  | srt_event :: records =>
      let '(event, w1) :=
        ConvertSrtEventToEpollEvent (status (fd srt_event)) srt_event w in
      convert_srt_events status (Datatypes.S index) records
        (set_epoll_events (<[index := event]> (_epoll_events w1)) w1)
  end.

Definition EpollWait (o : WaitOutcome) w : Z * World S :=
  if bool_decide (GetNativeHandle w = InvalidSocket) then
    (-1,
     logs (AssertionFailed "GetNativeHandle() != InvalidSocket")
       (logs (LogError "Epoll is not initialized") w))
  else
    let '(error, event_count, w1) :=
      match GetType w with
      | Udp | Tcp =>
          let w0 := record (Sys_epoll_wait (_epoll w)) w in
          let event_count := wait_count o in
          if bool_decide (event_count = 0) then (None, event_count, w0)
          else if bool_decide (0 < event_count) then
            (None, event_count,
             set_epoll_events
               (store_events 0 (take (Z.to_nat event_count) (epoll_records o))
                  (_epoll_events w0)) w0)
          else
            let error := ErrorFromErrno (wait_error o) in
            if bool_decide (GetCode error = Some EINTR) then (None, 0, w0)
            else (Some error, event_count,
                  logs (AssertionFailed "Unknown error") w0)
      | Srt =>
          let w0 := record (Sys_srt_epoll_uwait (_srt_epoll w)) w in
          let event_count := wait_count o in
          if bool_decide (event_count = 0) then (None, event_count, w0)
          else if bool_decide (0 < event_count) then
            (None, event_count,
             convert_srt_events (srt_getsockstate o) 0
               (take (Z.to_nat event_count) (srt_records o))
               (MergeSocketList w0))
          else
            (Some (ErrorFromSrt (wait_error o)), event_count,
             logs (AssertionFailed "Unknown error") w0)
      | Unknown => (Some (ErrorMessage "Unknown socket type"), 0, w)
      end in
    match error with
    | None => (event_count, set_last_epoll_event_count event_count w1)
    | Some _ =>
        (0, set_last_epoll_event_count 0
              (logs (LogError "Could not wait for epoll") w1))
    end.

(** *** One readiness event (the body of the loop of lines 270-433) *)

(** The two locals that decide the closure. *)
Record Closure := mkClosure {
  need_to_close : bool;
  new_state : SocketState
}.

(** Lines 324-349: a writable event resolves a pending connect. *)
Definition resolve_connect (event : epoll_event) s w : bool * World S :=
  if OV_CHECK_FLAG (events event) EPOLLOUT then
    if bool_decide (Socket.GetState (heap w s) = Connecting) then
      match Socket.GetSockOpt_SO_ERROR (heap w s) with
      | Some so_error =>
          if bool_decide (so_error = 0) then
            (false,
             invoke s (CallOnConnectedEvent s None)
               (Socket.OnConnectedEvent None) w)
          else
            let error := Some (SocketErrorOccurred so_error) in
            (true,
             invoke s (CallOnConnectedEvent s error)
               (Socket.OnConnectedEvent error) w)
      | None =>
          let error := Some (UnknownErrorOccurred (events event)) in
          (true,
           invoke s (CallOnConnectedEvent s error)
             (Socket.OnConnectedEvent error) w)
      end
    else (false, w)
  else (false, w).

(** Lines 359-383: the writable flag. *)
Definition on_writable (event : epoll_event) s (c : Closure) w
  : Closure * World S :=
  if OV_CHECK_FLAG (events event) EPOLLOUT then
    if negb (OV_CHECK_FLAG (events event) EPOLLHUP) then
      let '(result, w1) := call_DispatchEvents s w in
      match result with
      | Socket.Dispatched => (c, w1)
      | Socket.PartialDispatched =>
          (c,
           set_gc_candidates
             (<[Socket.GetNativeHandle (heap w1 s) := s]> (_gc_candidates w1))
             w1)
      | Socket.Error => (mkClosure true Error, w1)
      end
    else (c, w)
  else (c, w).

(** Lines 385-389: the readable flag. *)
Definition on_readable (event : epoll_event) s (c : Closure) w
  : Closure * World S :=
  if OV_CHECK_FLAG (events event) EPOLLIN then
    (c, invoke s (CallOnDataAvailableEvent s) Socket.OnDataAvailableEvent w)
  else (c, w).

(** Lines 391-403: the error flag. *)
Definition on_error (event : epoll_event) s (c : Closure) w
  : Closure * World S :=
  if OV_CHECK_FLAG (events event) EPOLLERR then (mkClosure true Error, w)
  else (c, w).

(** Lines 405-415: hangup, or hangup of the peer. *)
Definition on_hangup (event : epoll_event) s (c : Closure) w
  : Closure * World S :=
  if OV_CHECK_FLAG (events event) EPOLLHUP
     || OV_CHECK_FLAG (events event) EPOLLRDHUP then
    if negb (bool_decide (Socket.GetState (heap w s) = Error)) then
      (mkClosure true Disconnected,
       invoke s (CallSetEndOfStream s) Socket.SetEndOfStream w)
    else (c, w)
  else (c, w).

(** Lines 357-416, when the connect stage asked for no closure. *)
Definition process_flags (event : epoll_event) s w : Closure * World S :=
  let '(c1, w1) := on_writable event s (mkClosure false Closed) w in
  let '(c2, w2) := on_readable event s c1 w1 in
  let '(c3, w3) := on_error event s c2 w2 in
  on_hangup event s c3 w3.

(** Lines 422-432. *)
Definition close_socket s (c : Closure) w : World S :=
  if need_to_close c then
    let w1 :=
      set_gc_candidates
        (delete (Socket.GetNativeHandle (heap w s)) (_gc_candidates w)) w in
    let w2 :=
      if Socket.IsClosable (heap w1 s) then
        invoke s (CallCloseWithState s (new_state c))
          (Socket.CloseWithState (new_state c)) w1
      else w1 in
    EnqueueToDispatchLater s w2
  else w.

(** Lines 321-432: the handling proper, past the guards. *)
Definition process_event (event : epoll_event) s w : World S :=
  let '(connect_failed, w1) := resolve_connect event s w in
  if bool_decide (Socket.GetBlockingMode (heap w1 s) = Blocking) then w1
  else
    let '(c, w2) :=
      if negb connect_failed then process_flags event s w1
      else (mkClosure true Closed, w1) in
    close_socket s c w2.

Definition handle_event w (event : epoll_event) : World S :=
  match data_ptr event with
  | None =>
      logs (LogError "Could not convert socket data")
        (logs (AssertionFailed "socket_data != nullptr") w)
  | Some s =>
      if negb (Socket.IsClosable (heap w s)) then w
      else if Socket.NeedToWaitFirstEpollEvent (heap w s) then
        if OV_CHECK_FLAG (events event) EPOLLOUT then
          invoke s (CallSetFirstEpollEventReceived s)
            Socket.SetFirstEpollEventReceived w
        else
          process_event event s
            (logs (AssertionFailed "EPOLLOUT event expected") w)
      else process_event event s w
  end.

(** *** Deferred dispatch (lines 436-462) *)

Definition dispatch_later w s : World S :=
  let '(result, w1) := call_DispatchEvents s w in
  match result with
  | Socket.Dispatched => w1
  | Socket.PartialDispatched =>
      set_gc_candidates
        (<[Socket.GetNativeHandle (heap w1 s) := s]> (_gc_candidates w1)) w1
  | Socket.Error =>
      invoke s (CallCloseWithState s Error) (Socket.CloseWithState Error) w1
  end.

Definition dispatch_deferred w : World S :=
  match _sockets_to_dispatch w with
  | [] => w
  | socket_list => foldl dispatch_later (set_sockets_to_dispatch [] w) socket_list
  end.

(** *** [ThreadProc]

    What one turn of the loop takes from outside: the outcome of the
    wait, whether the GC interval has elapsed, and the outcome of the
    deregistrations of the GC pass. *)
Record Iteration := mkIteration {
  wait_outcome : WaitOutcome;
  gc_interval_elapsed : bool;
  deregistration : Z → option Z
}.

Definition ThreadProc_iteration (i : Iteration) w : World S :=
  let '(count, w1) := EpollWait (wait_outcome i) w in
  let w2 :=
    if bool_decide (count < 0) then
      logs (LogError "An error occurred - EpollWait()") w1
    else
      foldl handle_event (CallbackTimedOutConnections w1)
        (take (Z.to_nat count) (_epoll_events w1)) in
  let w3 := dispatch_deferred w2 in
  let w4 :=
    if gc_interval_elapsed i then GarbageCollection (deregistration i) w3
    else w3 in
  MergeSocketList w4.

(** The loop runs for as long as the stop flag is down; the turns it
    takes before another thread raises the flag are [iterations]. *)
Fixpoint ThreadProc_loop (iterations : list Iteration) w : World S :=
  match iterations with
  | [] => w
  | i :: iterations =>
      if _stop_epoll_thread w then w
      else ThreadProc_loop iterations (ThreadProc_iteration i w)
  end.

(** Lines 477-487: the body of the clean-up loop, on a socket. *)
Definition cleanup_socket w s : World S :=
  if Socket.IsClosable (heap w s) then
    let w1 := invoke s (CallCloseInternal s) Socket.CloseInternal w in
    let w2 := invoke s (CallSetState s Closed) (Socket.SetState Closed) w1 in
    (call_DispatchEvents s w2).2
  else w.

(** Lines 475-488, for one item of the handle map.  The item's pointer
    is dereferenced without a test: on a null pointer the behaviour is
    undefined, which is [None]. *)
Definition cleanup_visit (acc : option (World S)) (item : Z * option SocketPtr)
  : option (World S) :=
  w ← acc;
  s ← item.2;
  Some (cleanup_socket w s).

(** Lines 472-488: what the thread does once it has left the loop. *)
Definition ThreadProc_exit w : option (World S) :=
  let q := _connection_callback_queue w in
  foldl cleanup_visit
    (Some (set_connection_callback_queue (mkDelayQueue false (pending q)) w))
    (in_key_order (_socket_map w)).

Definition ThreadProc (iterations : list Iteration) w : option (World S) :=
  let q := _connection_callback_queue w in
  ThreadProc_exit
    (ThreadProc_loop iterations
       (set_connection_callback_queue (mkDelayQueue true (pending q)) w)).

(** *** [Uninitialize]

    [_epoll_thread.join()] waits for the worker thread, which sees the
    raised flag at its next loop test and runs [ThreadProc_exit]. *)

Definition clear_containers w : World S :=
  set_gc_candidates ∅
    (set_connection_timed_out_queue []
       (set_sockets_to_delete []
          (set_sockets_to_dispatch []
             (set_sockets_to_insert []
                (set_socket_map ∅ (set_socket_count 0 w)))))).

(** [OV_SAFE_FUNC(_epoll, InvalidSocket, ::close, )] and the same for
    [_srt_epoll]: release the handle when there is one. *)
Definition release_handles w : World S :=
  let w1 :=
    if bool_decide (_epoll w = InvalidSocket) then w
    else set_epoll InvalidSocket (record (Sys_close (_epoll w)) w) in
  if bool_decide (_srt_epoll w1 = InvalidSocket) then w1
  else set_srt_epoll InvalidSocket (record (Sys_srt_close (_srt_epoll w1)) w1).

Definition Uninitialize w : option (bool * World S) :=
  if bool_decide (GetNativeHandle w = InvalidSocket) then
    Some (false,
          logs (AssertionFailed "GetNativeHandle() != InvalidSocket")
            (logs (LogError "Epoll is not initialized") w))
  else
    let q := _connection_callback_queue w in
    let w1 := set_connection_callback_queue (mkDelayQueue (running q) []) w in
    let w2 := set_stop_epoll_thread true w1 in
    w3 ← (if _epoll_thread w2
          then set_epoll_thread false <$> ThreadProc_exit w2
          else Some w2);
    Some (true, release_handles (clear_containers w3)).

End Worker.

(** ** Set-up (lines 40-65 and 111-168)

    The system calls of the set-up are returned by the operation that
    makes them, in order. *)

Inductive SetupCall :=
| Sys_epoll_create1
| Sys_srt_epoll_create
| Sys_srt_epoll_set (eid flags : Z)
| Sys_pthread_setname_np (name : string).

(** [SRT_EPOLL_ENABLE_EMPTY] of srt.h. *)
Definition SRT_EPOLL_ENABLE_EMPTY : Z := 1.

(** Modelled from the spec: [ov::String] is not under src.  The spec has
    the thread named from the pool's name, prefixed, whitespace-stripped
    and truncated; lines 57-60 prepend SP, replace every space by
    nothing and set the length to 15. *)
Definition space : Ascii.ascii := Ascii.ascii_of_nat 32.

Fixpoint Replace_space (name : string) : string :=
  match name with
  | EmptyString => EmptyString
  | String c rest =>
      if Ascii.eqb c space then Replace_space rest
      else String c (Replace_space rest)
  end.

Fixpoint SetLength (n : nat) (name : string) : string :=
  match n, name with
  | Datatypes.S n, String c rest => String c (SetLength n rest)
  | _, _ => EmptyString
  end.

Definition thread_name (pool_name : string) : string :=
  SetLength 15 (Replace_space (String.append "SP" pool_name)).

(** A value-initialized [epoll_event], as [resize] appends it. *)
Definition blank_event : epoll_event := mk_epoll_event 0 None.

Section Setup.

Context {S : Type} `{!Socket.SocketClass S}.

Implicit Types (w : World S) (s : SocketPtr).

(** [created] is what [epoll_create1] or [srt_epoll_create] returns;
    [EpollMaxEvents] is the constant of the header. *)
Definition PrepareEpoll (EpollMaxEvents : nat) (created : Z) w
  : bool * list SetupCall * World S :=
  let '(failed, setup, w1) :=
    match GetType w with
    | Udp | Tcp =>
        let w0 := set_epoll created w in
        if bool_decide (created ≠ InvalidSocket) then
          (false, [Sys_epoll_create1],
           set_epoll_events
             (resize EpollMaxEvents blank_event (_epoll_events w0)) w0)
        else (true, [Sys_epoll_create1], w0)
    | Srt =>
        let w0 := set_srt_epoll created w in
        if bool_decide (created ≠ SRT_INVALID_SOCK) then
          (false,
           [Sys_srt_epoll_create;
            Sys_srt_epoll_set created SRT_EPOLL_ENABLE_EMPTY],
           set_epoll_events
             (resize EpollMaxEvents blank_event (_epoll_events w0)) w0)
        else (true, [Sys_srt_epoll_create], w0)
    | Unknown => (true, [], w)
    end in
  if failed then (false, setup, logs (LogError "Could not prepare epoll") w1)
  else (true, setup, w1).

(** Line 55 assigns the new thread to [_epoll_thread]: the assignment
    to a [std::thread] that is joinable terminates the program, which is
    [None]. *)
Definition Initialize (EpollMaxEvents : nat) (pool_name : string)
    (created : Z) w : option (bool * list SetupCall * World S) :=
  if bool_decide (GetNativeHandle w ≠ InvalidSocket) then
    Some (false, [],
          logs (AssertionFailed "GetNativeHandle() == InvalidSocket")
            (logs (LogError "Epoll is already initialized") w))
  else
    let '(prepared, setup, w1) := PrepareEpoll EpollMaxEvents created w in
    if negb prepared then Some (false, setup, w1)
    else
      let w2 := set_stop_epoll_thread false w1 in
      if _epoll_thread w2 then None
      else
        Some (true,
              setup ++ [Sys_pthread_setname_np (thread_name pool_name)],
              set_epoll_thread true w2).

End Setup.

(** ** Parts of the world, for frame statements *)

Section Frames.

Context {S : Type}.

(** The backend and the thread: its type and handles, the two thread
    flags, and the size of the event buffer. *)
Definition backend_of (w : World S) :=
  (pool_type w, _epoll w, _srt_epoll w, _stop_epoll_thread w,
   _epoll_thread w, length (_epoll_events w)).

(** What neither events nor dispatches nor the garbage collection
    touch. *)
Definition registry_of (w : World S) :=
  (_socket_count w, _socket_map w, _sockets_to_insert w,
   _connection_callback_queue w, _epoll_events w, _last_epoll_event_count w).

(** What the handling of a readiness event, a timeout or a deferred
    dispatch leaves alone. *)
Definition quiet_of (w : World S) :=
  (backend_of w, registry_of w, _sockets_to_delete w,
   _connection_timed_out_queue w).

(** The footprint of the work done for socket [s]: nothing of
    [quiet_of] changes, no other socket object changes, every new entry
    of the GC-candidate set is for [s], and the deferred-dispatch list
    only grows, by [s]. *)
Definition event_frame (s : SocketPtr) (w w' : World S) : Prop :=
  quiet_of w' = quiet_of w
  ∧ (∀ x, x ≠ s → heap w' x = heap w x)
  ∧ (∀ k x,
       _gc_candidates w' !! k = Some x →
       x = s ∨ _gc_candidates w !! k = Some x)
  ∧ ∃ added,
      _sockets_to_dispatch w' = _sockets_to_dispatch w ++ added
      ∧ Forall (eq s) added.

End Frames.

(** ** Vocabulary of the statements *)

(** The same outcome, with a return value of zero. *)
Definition timed_out (o : WaitOutcome) : WaitOutcome :=
  mkWaitOutcome 0 (wait_error o) (epoll_records o) (srt_records o)
    (srt_getsockstate o).

(** The socket a call is made on; a call into the backend has none. *)
Definition call_socket (c : Call) : option SocketPtr :=
  match c with
  | CallSetFirstEpollEventReceived s
  | CallSetEndOfStream s
  | CallSetState s _
  | CallCloseWithState s _
  | CallCloseInternal s
  | CallDispatchEvents s
  | CallOnConnectedEvent s _
  | CallOnDataAvailableEvent s => Some s
  | _ => None
  end.

(** The calls of a trace that are made on socket [s]. *)
Definition calls_to (s : SocketPtr) (trace : list Call) : list Call :=
  filter (λ c, call_socket c = Some s) trace.

(** The connect-failure outcome the worker delivers on a timeout. *)
Definition timeout_failure (s : SocketPtr) : Call :=
  CallOnConnectedEvent s (Some ConnectionTimedOutByWorker).

(** What a closable socket gets from the clean-up loop. *)
Definition final_calls (s : SocketPtr) : list Call :=
  [CallCloseInternal s; CallSetState s Closed; CallDispatchEvents s].

(** The calls an event may give rise to: they are made on the socket of
    its payload, and a dispatch needs the writable flag without the
    hangup flag. *)
Definition event_call (event : epoll_event) (c : Call) : Prop :=
  match c with
  | CallDispatchEvents x =>
      data_ptr event = Some x
      ∧ OV_CHECK_FLAG (events event) EPOLLOUT = true
      ∧ OV_CHECK_FLAG (events event) EPOLLHUP = false
  | CallSetFirstEpollEventReceived x
  | CallOnConnectedEvent x _
  | CallOnDataAvailableEvent x
  | CallSetEndOfStream x
  | CallCloseWithState x _ => data_ptr event = Some x
  | _ => False
  end.

Section Vocabulary.

Context {S : Type} `{!Socket.SocketClass S}.

Implicit Types (w : World S) (s : SocketPtr).

(** The backend call of a deregistration. *)
Definition deregistration_call w (native_handle : Z) : Call :=
  match GetType w with
  | Srt => Sys_srt_epoll_remove_usock (_srt_epoll w) native_handle
  | _ => Sys_epoll_ctl_del (_epoll w) native_handle
  end.

(** The wait primitive of the worker's backend. *)
Definition wait_call w : Call :=
  match GetType w with
  | Srt => Sys_srt_epoll_uwait (_srt_epoll w)
  | _ => Sys_epoll_wait (_epoll w)
  end.

(** The world in which the worker thread starts its clean-up, when
    [Uninitialize] is called in [w]. *)
Definition at_thread_exit w : World S :=
  set_connection_callback_queue (mkDelayQueue false [])
    (set_stop_epoll_thread true
       (set_connection_callback_queue
          (mkDelayQueue (running (_connection_callback_queue w)) []) w)).

(** What a deferred dispatch calls on socket [s], whose object is [o]:
    one dispatch, and a closure with state [Error] when it fails. *)
Definition deferred_calls s (o : S) : list Call :=
  CallDispatchEvents s ::
  match (Socket.DispatchEvents o).1 with
  | Socket.Error => [CallCloseWithState s Error]
  | _ => []
  end.

(** [w'] is [w] after some calls, all of which satisfy [P]. *)
Definition appends (P : Call → Prop) w w' : Prop :=
  ∃ trace, calls w' = calls w ++ trace ∧ Forall P trace.

End Vocabulary.

(** ** A scripted socket

    An implementation of the socket interface whose answers are read off
    its fields; the worker is run on it at concrete inputs.  A dispatch
    answers the next result of [dispatch_script] ([Dispatched] once the
    script is used up). *)

Module Scripted.

Record t := mk {
  handle : Z;
  state : SocketState;
  blocking_mode : BlockingMode;
  closable : bool;
  first_event_pending : bool;
  command_pending : bool;
  command_expired : bool;
  so_error : option Z;
  dispatch_script : list Socket.DispatchResult;
  end_of_stream : bool
}.

Definition with_state (st : SocketState) (closable' : bool) (o : t) : t :=
  mk (handle o) st (blocking_mode o) closable' (first_event_pending o)
     (command_pending o) (command_expired o) (so_error o)
     (dispatch_script o) (end_of_stream o).

Definition dispatch (o : t) : Socket.DispatchResult * t :=
  match dispatch_script o with
  | [] => (Socket.Dispatched, o)
  | result :: script =>
      (result,
       mk (handle o) (state o) (blocking_mode o) (closable o)
          (first_event_pending o) (command_pending o) (command_expired o)
          (so_error o) script (end_of_stream o))
  end.

#[global] Instance socket : Socket.SocketClass t := {|
  Socket.GetNativeHandle := handle;
  Socket.GetState := state;
  Socket.GetBlockingMode := blocking_mode;
  Socket.IsClosable := closable;
  Socket.NeedToWaitFirstEpollEvent := first_event_pending;
  Socket.HasCommand := command_pending;
  Socket.HasExpiredCommand := command_expired;
  Socket.GetSockOpt_SO_ERROR := so_error;
  Socket.SetFirstEpollEventReceived := λ o,
    mk (handle o) (state o) (blocking_mode o) (closable o) false
       (command_pending o) (command_expired o) (so_error o)
       (dispatch_script o) (end_of_stream o);
  Socket.SetEndOfStream := λ o,
    mk (handle o) (state o) (blocking_mode o) (closable o)
       (first_event_pending o) (command_pending o) (command_expired o)
       (so_error o) (dispatch_script o) true;
  Socket.SetState := λ st o, with_state st (closable o) o;
  Socket.CloseWithState := λ st o, with_state st false o;
  Socket.CloseInternal := λ o, with_state (state o) false o;
  Socket.DispatchEvents := dispatch;
  Socket.OnConnectedEvent := λ error o,
    match error with
    | None => with_state Connected (closable o) o
    | Some _ => with_state Error (closable o) o
    end;
  Socket.OnDataAvailableEvent := λ o, o
|}.

(** A connected, non-blocking socket with nothing to send. *)
Definition idle (h : Z) : t :=
  mk h Connected NonBlocking true false false false (Some 0) [] false.

(** A socket that has just been registered: its first epoll event is
    still to come. *)
Definition fresh (h : Z) (closable' : bool) : t :=
  mk h Connected NonBlocking closable' true false false (Some 0) [] false.

(** A socket whose connect is pending. *)
Definition connecting (h : Z) : t :=
  mk h Connecting NonBlocking true false false false (Some 0) [] false.

(** A socket with data to send, whose next dispatches answer [script]. *)
Definition sending (h : Z) (expired : bool)
    (script : list Socket.DispatchResult) : t :=
  mk h Connected NonBlocking true false true expired (Some 0) script false.

(** The heap that holds [o] at address [p], and what [objects] holds
    elsewhere. *)
Definition place (p : SocketPtr) (o : t) (objects : SocketPtr → t)
  : SocketPtr → t :=
  λ q, if bool_decide (q = p) then o else objects q.

(** A TCP worker on epoll handle 3 with empty containers, over a heap
    of idle sockets whose handle is 10 plus their address. *)
Definition tcp_worker : World t :=
  mkWorld Tcp 3 InvalidSocket false true 0 ∅ [] [] [] []
    (mkDelayQueue true []) ∅ [] 0 (λ p, idle (10 + Z.pos p)) [] [].

(** The same for SRT, on SRT epoll id 4. *)
Definition srt_worker : World t :=
  mkWorld Srt InvalidSocket 4 false true 0 ∅ [] [] [] []
    (mkDelayQueue true []) ∅ [] 0 (λ p, idle (10 + Z.pos p)) [] [].

End Scripted.

(** ** The worker at concrete inputs *)

Module Examples.

Import Scripted.

Definition writable (s : SocketPtr) : epoll_event :=
  mk_epoll_event EPOLLOUT (Some s).

Definition writable_hangup (s : SocketPtr) : epoll_event :=
  mk_epoll_event (Z.lor EPOLLOUT EPOLLHUP) (Some s).

(** Socket 1 (handle 11) sits in the GC-candidate set after an earlier
    partial dispatch and is queued for a deferred dispatch. *)
Definition candidate_queued (script : list Socket.DispatchResult)
  : World Scripted.t :=
  set_heap (place 1%positive (sending 11 false script) (heap tcp_worker))
    (set_sockets_to_dispatch [1%positive]
       (set_gc_candidates {[11 := 1%positive]} tcp_worker)).

(** Socket 1 was closed before its first epoll event arrived. *)
Definition closed_before_first_event : World Scripted.t :=
  set_heap (place 1%positive (fresh 11 false) (heap tcp_worker)) tcp_worker.

(** Socket 1 has just been registered. *)
Definition just_registered : World Scripted.t :=
  set_heap (place 1%positive (fresh 11 true) (heap tcp_worker)) tcp_worker.

End Examples.

(** Workers brought up by [Initialize], with an event buffer of four
    records. *)
Module Started.

Import Scripted.

(** A worker of the given type before [Initialize]. *)
Definition cold (type : SocketType) : World Scripted.t :=
  mkWorld type InvalidSocket InvalidSocket false false 0 ∅ [] [] [] []
    (mkDelayQueue false []) ∅ [] 0 (λ p, idle (10 + Z.pos p)) [] [].

Definition tcp : World Scripted.t :=
  from_option snd (cold Tcp) (Initialize 4 "Pool 1" 3 (cold Tcp)).

Definition srt : World Scripted.t :=
  from_option snd (cold Srt) (Initialize 4 "Pool 1" 4 (cold Srt)).

(** A wait that hands back one epoll record. *)
Definition one_event (event : epoll_event) : WaitOutcome :=
  mkWaitOutcome 1 0 [event] [] (λ _, SRTS_CONNECTED).

(** A wait that hands back one SRT record, a readable event for
    [handle]. *)
Definition one_srt_event (handle : Z) : WaitOutcome :=
  mkWaitOutcome 1 0 [] [mk_srt_event handle SRT_EPOLL_IN]
    (λ _, SRTS_CONNECTED).

End Started.

(** ** Registration and the handle map (lines 175-200, 491-550, 716-780) *)

Section Registration.

Context {S : Type} `{!Socket.SocketClass S}.

Implicit Types (w : World S) (s : SocketPtr).

Lemma merge_insert_last (objects : SocketPtr → S) m q s :
  foldl (merge_insert objects) m (q ++ [s])
    !! Socket.GetNativeHandle (objects s) = Some (Some s).
Proof.
  rewrite foldl_app. simpl. unfold merge_insert at 1.
  apply lookup_insert_eq.
Qed.

Lemma merge_delete_other (objects : SocketPtr → S) h q :
  Forall (λ d, Socket.GetNativeHandle (objects d) ≠ h) q →
  ∀ m, foldl (merge_delete objects) m q !! h = m !! h.
Proof.
  induction 1 as [|d q Hd _ IH]; intros m; simpl; [done|].
  rewrite IH. unfold merge_delete. by rewrite lookup_delete_ne.
Qed.

Lemma merge_insert_other (objects : SocketPtr → S) h q :
  Forall (λ d, Socket.GetNativeHandle (objects d) ≠ h) q →
  ∀ m, foldl (merge_insert objects) m q !! h = m !! h.
Proof.
  induction 1 as [|d q Hd _ IH]; intros m; simpl; [done|].
  rewrite IH. unfold merge_insert. by rewrite lookup_insert_ne.
Qed.

Lemma merge_insert_lookup (objects : SocketPtr → S) (h : Z) q :
  ∀ m,
    foldl (merge_insert objects) m q !! h =
      match last (filter (λ s, Socket.GetNativeHandle (objects s) = h) q) with
      | Some s => Some (Some s)
      | None => m !! h
      end.
Proof.
  induction q as [|x q IH]; intros m; simpl; [done|].
  rewrite IH. unfold merge_insert.
  destruct (decide (Socket.GetNativeHandle (objects x) = h)) as [Hx|Hx].
  - rewrite filter_cons_True by done. rewrite last_cons.
    destruct (last _); [done|]. rewrite <- Hx. apply lookup_insert_eq.
  - rewrite filter_cons_False by done.
    destruct (last _); [done|]. by rewrite lookup_insert_ne.
Qed.

Lemma merge_delete_lookup (objects : SocketPtr → S) (h : Z) q :
  ∀ m,
    foldl (merge_delete objects) m q !! h =
      if bool_decide (h ∈ (λ s, Socket.GetNativeHandle (objects s)) <$> q)
      then None else m !! h.
Proof.
  induction q as [|x q IH]; intros m; simpl; [done|].
  rewrite IH. unfold merge_delete.
  destruct (decide (Socket.GetNativeHandle (objects x) = h)) as [Hx|Hx].
  - rewrite (bool_decide_eq_true_2 (h ∈ _ :: _)) by (rewrite Hx; left).
    case_bool_decide; [done|]. rewrite <- Hx. apply lookup_delete_eq.
  - rewrite lookup_delete_ne by done.
    apply (f_equal (λ b : bool, if b then None else m !! h)).
    apply bool_decide_ext. rewrite elem_of_cons.
    split; [by right|]. intros [Heq|Hin]; [|done]. by destruct Hx.
Qed.

(** C7.  [AddToEpoll] leaves the handle map as it is.  When the backend
    registers the handle it answers [true] and appends the socket to the
    insert queue, and the socket is in the handle map after the next
    [MergeSocketList] (unless a queued deletion names the same handle);
    when the registration fails it answers [false] and the insert queue
    is as before.  No other container and no socket object changes. *)
Theorem AddToEpoll_defers_to_merge (backend : option Z) s w :
  let h := Socket.GetNativeHandle (heap w s) in
  let r := AddToEpoll backend s w in
  _socket_map r.2 = _socket_map w
  ∧ _sockets_to_delete r.2 = _sockets_to_delete w
  ∧ _sockets_to_dispatch r.2 = _sockets_to_dispatch w
  ∧ _connection_timed_out_queue r.2 = _connection_timed_out_queue w
  ∧ _gc_candidates r.2 = _gc_candidates w
  ∧ heap r.2 = heap w
  ∧ (r.1 = true ↔ GetType w ≠ Unknown ∧ backend = None)
  ∧ if r.1 then
      _sockets_to_insert r.2 = _sockets_to_insert w ++ [s]
      ∧ (Forall (λ d, Socket.GetNativeHandle (heap w d) ≠ h)
           (_sockets_to_delete w) →
         _socket_map (MergeSocketList r.2) !! h = Some (Some s))
    else _sockets_to_insert r.2 = _sockets_to_insert w.
Proof.
  intros h r. subst h r. unfold AddToEpoll, GetType in *.
  destruct (pool_type w) eqn:Ht;
    destruct backend as [code|]; simpl;
    case_bool_decide; simpl; rewrite ?Ht; simpl;
    repeat split; try done; try (by intros [? ?]);
    intros Hq; unfold MergeSocketList; simpl;
    (rewrite merge_delete_other; [apply merge_insert_last | done]).
Qed.

Lemma DeleteFromEpoll_unfold (backend : option Z) s w :
  GetNativeHandle w ≠ InvalidSocket →
  GetType w ≠ Unknown →
  let w1 :=
    record (deregistration_call w (Socket.GetNativeHandle (heap w s))) w in
  DeleteFromEpoll backend s w =
    match backend with
    | None => (true, set_sockets_to_delete (_sockets_to_delete w ++ [s]) w1)
    | Some code =>
        if bool_decide (code = EBADF) then (false, w1)
        else (false,
              logs (LogError "Could not delete the socket from epoll") w1)
    end.
Proof.
  intros Hinit Htype. unfold DeleteFromEpoll, deregistration_call.
  rewrite bool_decide_eq_false_2 by done.
  unfold GetType in *.
  destruct (pool_type w); [done|..]; destruct backend as [code|]; simpl;
    try done; repeat case_bool_decide; simplify_eq; done.
Qed.

(** C9.  On an initialized worker of a supported type, a deregistration
    that fails with [EBADF] answers [false], writes no message, and leaves
    the delete queue and the handle map as they are, so the call does not
    remove the entry of the socket's handle.  Whatever the outcome, the
    socket is appended to the delete queue exactly when the backend
    succeeds; a failure other than [EBADF] differs only by its error
    message.  The entry is kept by the next merge and by every later one
    whose queues name no socket with the same handle; a merge replaces it
    by the last socket queued for insertion under this handle, erases it
    when a queued deletion names the handle, and a completed
    [Uninitialize] clears the map. *)
Theorem DeleteFromEpoll_bad_descriptor (backend : option Z) s w :
  GetNativeHandle w ≠ InvalidSocket →
  GetType w ≠ Unknown →
  let h := Socket.GetNativeHandle (heap w s) in
  let bad := DeleteFromEpoll (Some EBADF) s w in
  let r := DeleteFromEpoll backend s w in
  bad.1 = false
  ∧ _sockets_to_delete bad.2 = _sockets_to_delete w
  ∧ _sockets_to_insert bad.2 = _sockets_to_insert w
  ∧ _socket_map bad.2 = _socket_map w
  ∧ heap bad.2 = heap w
  ∧ log bad.2 = log w
  ∧ _socket_map (MergeSocketList bad.2) = _socket_map (MergeSocketList w)
  ∧ (∀ entry,
       _socket_map w !! h = Some entry →
       Forall (λ d, Socket.GetNativeHandle (heap w d) ≠ h)
         (_sockets_to_insert w ++ _sockets_to_delete w) →
       _socket_map (MergeSocketList bad.2) !! h = Some entry)
  ∧ (r.1 = true ↔ backend = None)
  ∧ _sockets_to_delete r.2 =
      (if r.1 then _sockets_to_delete w ++ [s] else _sockets_to_delete w)
  ∧ (∀ code, backend = Some code → code ≠ EBADF →
       log r.2 = log w ++ [LogError "Could not delete the socket from epoll"]
       ∧ _sockets_to_delete r.2 = _sockets_to_delete w)
  ∧ (∀ v,
       let handle := λ d, Socket.GetNativeHandle (heap v d) in
       (∀ entry,
          _socket_map v !! h = Some entry →
          Forall (λ d, handle d ≠ h)
            (_sockets_to_insert v ++ _sockets_to_delete v) →
          _socket_map (MergeSocketList v) !! h = Some entry)
       ∧ (∀ d,
            h ∉ handle <$> _sockets_to_delete v →
            last (filter (λ x, handle x = h) (_sockets_to_insert v))
            = Some d →
            _socket_map (MergeSocketList v) !! h = Some (Some d))
       ∧ (h ∈ handle <$> _sockets_to_delete v →
          _socket_map (MergeSocketList v) !! h = None))
  ∧ (∀ v v', Uninitialize v = Some (true, v') → _socket_map v' = ∅).
Proof.
  intros Hinit Htype h bad r. subst h bad r.
  rewrite !DeleteFromEpoll_unfold by done. simpl.
  do 7 (split; [done|]).
  split.
  { intros entry Hentry [Hins Hdel]%Forall_app.
    unfold MergeSocketList. simpl.
    rewrite merge_delete_other, merge_insert_other; done. }
  split.
  { destruct backend as [code|]; [|done]. by case_bool_decide. }
  split.
  { destruct backend as [code|]; [|done]. by case_bool_decide. }
  split.
  { intros code -> Hcode. by rewrite bool_decide_eq_false_2. }
  split.
  { intros v. split; [|split].
    - intros entry Hentry [Hins Hdel]%Forall_app.
      rewrite merge_delete_other, merge_insert_other; done.
    - intros d Hdel Hlast.
      rewrite merge_delete_lookup, bool_decide_eq_false_2 by done.
      by rewrite merge_insert_lookup, Hlast.
    - intros Hdel.
      by rewrite merge_delete_lookup, bool_decide_eq_true_2. }
  intros v v'. unfold Uninitialize.
  case_bool_decide; [intros [= ]|].
  destruct (_epoll_thread _); simpl;
    [destruct (ThreadProc_exit _); simpl; [|done]|];
    intros [= <-]; unfold release_handles;
    repeat (case_bool_decide; simpl); done.
Qed.

End Registration.

(** C9 at a concrete worker: TCP, epoll handle 3, socket 1 registered
    under its handle 11. *)
Lemma DeleteFromEpoll_bad_descriptor_witness :
  let w := set_socket_map {[11 := Some 1%positive]} Scripted.tcp_worker in
  (DeleteFromEpoll (Some EBADF) 1%positive w).1 = false
  ∧ _socket_map (MergeSocketList (DeleteFromEpoll (Some EBADF) 1%positive w).2)
      !! 11 = Some (Some 1%positive).
Proof.
  intros w.
  pose proof (DeleteFromEpoll_bad_descriptor (Some EBADF) 1%positive w) as Hbad.
  destruct Hbad as (Hfalse & _ & _ & _ & _ & _ & _ & Hkeep & _).
  - vm_compute. discriminate.
  - vm_compute. discriminate.
  - split; [exact Hfalse|].
    apply (Hkeep (Some 1%positive)).
    + reflexivity.
    + constructor.
Defined.

(** The entry does not stay until shutdown.  Socket 1 is registered
    under handle 11 and its deregistration fails with [EBADF]; the
    descriptor is reused by socket 2, which is registered, and the next
    merge replaces the entry of handle 11 by socket 2, on a worker that
    is still running. *)
Lemma bad_descriptor_entry_replaced :
  let w :=
    set_heap (Scripted.place 2%positive (Scripted.idle 11)
                (heap Scripted.tcp_worker))
      (set_socket_map {[11 := Some 1%positive]} Scripted.tcp_worker) in
  let w1 := (DeleteFromEpoll (Some EBADF) 1%positive w).2 in
  let w2 := (AddToEpoll None 2%positive w1).2 in
  let w3 := MergeSocketList w2 in
  (DeleteFromEpoll (Some EBADF) 1%positive w).1 = false
  ∧ _socket_map w1 !! 11 = Some (Some 1%positive)
  ∧ _socket_map w3 !! 11 = Some (Some 2%positive)
  ∧ GetNativeHandle w3 = 3
  ∧ _stop_epoll_thread w3 = false.
Proof. vm_compute. repeat split. Qed.

(** ** Waiting for events (lines 552-652) *)

Section Waiting.

Context {S : Type} `{!Socket.SocketClass S}.

Implicit Types (w : World S) (s : SocketPtr).

(** C8.  On an initialized worker of a supported type, a wait that
    returns zero makes [EpollWait] answer 0 without a message or a failed
    assertion: only the call and the last event count are recorded.  On
    the epoll backend a wait that fails with [EINTR] gives the very same
    result, and the turn of the loop it starts is the turn of a wait
    that returned zero. *)
Theorem EpollWait_timeout_and_interrupt (o : WaitOutcome) w :
  GetNativeHandle w ≠ InvalidSocket →
  GetType w ≠ Unknown →
  let quiet := (0, set_last_epoll_event_count 0 (record (wait_call w) w)) in
  log quiet.2 = log w
  ∧ (wait_count o = 0 → EpollWait o w = quiet)
  ∧ (GetType w ≠ Srt → wait_count o < 0 → wait_error o = EINTR →
     EpollWait o w = quiet
     ∧ ∀ gc dereg,
         ThreadProc_iteration (mkIteration o gc dereg) w =
         ThreadProc_iteration (mkIteration (timed_out o) gc dereg) w).
Proof.
  intros Hinit Htype quiet. subst quiet.
  assert (Hzero : ∀ o', wait_count o' = 0 →
            EpollWait o' w =
              (0, set_last_epoll_event_count 0 (record (wait_call w) w))).
  { intros o' Hcount. unfold EpollWait, wait_call.
    rewrite bool_decide_eq_false_2 by done.
    unfold GetType in *. rewrite Hcount.
    destruct (pool_type w); [done|..]; simpl; done. }
  split; [done|]. split; [apply Hzero|].
  intros Hepoll Hneg Heintr.
  assert (Hint : EpollWait o w =
            (0, set_last_epoll_event_count 0 (record (wait_call w) w))).
  { unfold EpollWait, wait_call.
    rewrite bool_decide_eq_false_2 by done.
    unfold GetType in *.
    destruct (pool_type w); [done| | |done]; simpl;
      rewrite !(bool_decide_eq_false_2 (wait_count o = 0)) by lia;
      rewrite !(bool_decide_eq_false_2 (0 < wait_count o)) by lia;
      rewrite Heintr; simpl; done. }
  split; [done|].
  intros gc dereg. unfold ThreadProc_iteration. simpl.
  rewrite Hint, (Hzero (timed_out o)) by done. done.
Qed.

(** C10.  An SRT event for a handle that the handle map does not hold is
    converted to an event with a null payload, and the lookup leaves a
    null entry for the handle in the map; nothing else changes.  The loop
    body given such an event calls no socket and touches no container:
    it reports the null payload and goes on. *)
Theorem ConvertSrtEventToEpollEvent_absent_handle
    (status : SRT_SOCKSTATUS) (srt_event : SRT_EPOLL_EVENT) w :
  _socket_map w !! fd srt_event = None →
  let r := ConvertSrtEventToEpollEvent status srt_event w in
  data_ptr r.1 = None
  ∧ r.2 = set_socket_map (<[fd srt_event := None]> (_socket_map w)) w
  ∧ _socket_map r.2 !! fd srt_event = Some None
  ∧ ∀ w',
      handle_event w' r.1 =
        logs (LogError "Could not convert socket data")
          (logs (AssertionFailed "socket_data != nullptr") w')
      ∧ calls (handle_event w' r.1) = calls w'
      ∧ heap (handle_event w' r.1) = heap w'
      ∧ _gc_candidates (handle_event w' r.1) = _gc_candidates w'
      ∧ _sockets_to_dispatch (handle_event w' r.1) = _sockets_to_dispatch w'
      ∧ _socket_map (handle_event w' r.1) = _socket_map w'.
Proof.
  intros Habsent r. subst r. unfold ConvertSrtEventToEpollEvent.
  rewrite Habsent. simpl.
  split; [done|]. split; [done|]. split; [apply lookup_insert_eq|].
  intros w'. unfold handle_event. simpl. done.
Qed.

End Waiting.

(** C8 at a TCP worker: a wait interrupted by a signal. *)
Lemma EpollWait_timeout_and_interrupt_witness :
  let o := mkWaitOutcome (-1) EINTR [] [] (λ _, SRTS_CONNECTED) in
  (EpollWait o Scripted.tcp_worker).1 = 0
  ∧ log (EpollWait o Scripted.tcp_worker).2 = [].
Proof.
  intros o.
  destruct (EpollWait_timeout_and_interrupt o Scripted.tcp_worker)
    as (Hlog & _ & Hint).
  - vm_compute. discriminate.
  - vm_compute. discriminate.
  - destruct Hint as [-> _].
    + vm_compute. discriminate.
    + reflexivity.
    + reflexivity.
    + split; reflexivity.
Defined.

(** C10 at an SRT worker with an empty handle map: a readable event for
    handle 7. *)
Lemma ConvertSrtEventToEpollEvent_absent_handle_witness :
  let r :=
    ConvertSrtEventToEpollEvent SRTS_CONNECTED (mk_srt_event 7 SRT_EPOLL_IN)
      Scripted.srt_worker in
  r.1 = mk_epoll_event EPOLLIN None
  ∧ _socket_map r.2 !! 7 = Some None.
Proof.
  intros r.
  destruct (ConvertSrtEventToEpollEvent_absent_handle SRTS_CONNECTED
              (mk_srt_event 7 SRT_EPOLL_IN) Scripted.srt_worker)
    as (_ & _ & Hentry & _).
  - reflexivity.
  - split; [reflexivity | exact Hentry].
Defined.

Lemma calls_to_app s t1 t2 : calls_to s (t1 ++ t2) = calls_to s t1 ++ calls_to s t2.
Proof. apply filter_app. Qed.

Lemma calls_to_others s trace :
  Forall (λ c, call_socket c ≠ Some s) trace → calls_to s trace = [].
Proof.
  induction 1 as [|c trace Hc _ IH]; [done|].
  unfold calls_to in *. rewrite filter_cons_False; done.
Qed.

(** ** Connection timeouts (lines 235-250) *)

Section Timeouts.

Context {S : Type} `{!Socket.SocketClass S}.

Implicit Types (w : World S) (s : SocketPtr).

Lemma timed_out_visit_spec w s :
  if bool_decide (Socket.GetState (heap w s) = Connecting) then
    timed_out_visit w s =
      invoke s (timeout_failure s)
        (Socket.OnConnectedEvent (Some ConnectionTimedOutByWorker)) w
  else timed_out_visit w s = w.
Proof. unfold timed_out_visit. by case_bool_decide. Qed.

Lemma timed_out_loop (queue : list SocketPtr) :
  ∀ w, ∃ outcomes,
    calls (foldl timed_out_visit w queue) = calls w ++ outcomes
    ∧ Forall (λ c, ∃ x, x ∈ queue ∧ c = timeout_failure x) outcomes
    ∧ (∀ y, y ∉ queue → heap (foldl timed_out_visit w queue) y = heap w y)
    ∧ _connection_timed_out_queue (foldl timed_out_visit w queue)
      = _connection_timed_out_queue w.
Proof.
  induction queue as [|x queue IH]; intros w; simpl.
  { exists []. rewrite app_nil_r. repeat split; done. }
  destruct (IH (timed_out_visit w x)) as (tr & Hcalls & Hall & Hheap & Hq).
  pose proof (timed_out_visit_spec w x) as Hvisit.
  case_bool_decide.
  - exists (timeout_failure x :: tr). split; [|split; [|split]].
    + rewrite Hcalls, Hvisit. simpl. by rewrite <- app_assoc.
    + constructor; [exists x; split; [left|done]|].
      eapply Forall_impl; [exact Hall|].
      intros c (y & Hy & ->). exists y. split; [by right|done].
    + intros y Hy. rewrite Hheap by set_solver. rewrite Hvisit. simpl.
      rewrite fn_lookup_insert_ne; [done|set_solver].
    + by rewrite Hq, Hvisit.
  - exists tr. split; [|split; [|split]].
    + by rewrite Hcalls, Hvisit.
    + eapply Forall_impl; [exact Hall|].
      intros c (y & Hy & ->). exists y. split; [by right|done].
    + intros y Hy. rewrite Hheap by set_solver. by rewrite Hvisit.
    + by rewrite Hq, Hvisit.
Qed.

Lemma timeout_failures_of_others (queue : list SocketPtr) s outcomes :
  s ∉ queue →
  Forall (λ c, ∃ x, x ∈ queue ∧ c = timeout_failure x) outcomes →
  calls_to s outcomes = [].
Proof.
  intros Hs Hall. apply calls_to_others.
  eapply Forall_impl; [exact Hall|].
  intros c (x & Hx & ->). simpl. intros [= ->]. done.
Qed.

(** C3.  [CallbackTimedOutConnections] empties the timeout queue and
    visits its entries in order.  At the visit of an entry, the socket
    receives one [OnConnectedEvent] with the timeout error when its state
    is [Connecting], and the visit changes nothing otherwise.  The pass
    makes no other kind of call; so a socket with a single entry receives
    exactly one connect failure when it is [Connecting] as the pass
    starts, and no call at all when it is not. *)
Theorem CallbackTimedOutConnections_entry w before s after :
  _connection_timed_out_queue w = before ++ s :: after →
  let w0 := set_connection_timed_out_queue [] w in
  let w1 := foldl timed_out_visit w0 before in
  let w2 := timed_out_visit w1 s in
  let w' := CallbackTimedOutConnections w in
  w' = foldl timed_out_visit w2 after
  ∧ _connection_timed_out_queue w' = []
  ∧ (if bool_decide (Socket.GetState (heap w1 s) = Connecting) then
       calls w2 = calls w1 ++ [timeout_failure s]
       ∧ heap w2 =
           <[s := Socket.OnConnectedEvent (Some ConnectionTimedOutByWorker)
                    (heap w1 s)]> (heap w1)
     else w2 = w1)
  ∧ ∃ outcomes,
      calls w' = calls w ++ outcomes
      ∧ Forall (λ c, ∃ x, x ∈ before ++ s :: after ∧ c = timeout_failure x)
          outcomes
      ∧ (s ∉ before → s ∉ after →
         calls_to s outcomes =
           if bool_decide (Socket.GetState (heap w s) = Connecting)
           then [timeout_failure s] else []).
Proof.
  intros Hqueue w0 w1 w2 w'.
  assert (Hrun : w' = foldl timed_out_visit w2 after).
  { subst w' w2 w1 w0. unfold CallbackTimedOutConnections.
    by rewrite Hqueue, foldl_app. }
  destruct (timed_out_loop before w0) as (tr1 & Hc1 & Hall1 & Hheap1 & Hq1).
  destruct (timed_out_loop after w2) as (tr2 & Hc2 & Hall2 & Hheap2 & Hq2).
  fold w1 in Hc1, Hheap1, Hq1.
  pose proof (timed_out_visit_spec w1 s) as Hvisit. fold w2 in Hvisit.
  split; [done|]. split.
  { rewrite Hrun, Hq2.
    destruct (bool_decide _); rewrite Hvisit; simpl; by rewrite ?Hq1. }
  split.
  { destruct (bool_decide _); rewrite Hvisit; done. }
  assert (Htr : ∃ tr, calls w2 = calls w1 ++ tr
            ∧ tr = (if bool_decide (Socket.GetState (heap w1 s) = Connecting)
                    then [timeout_failure s] else [])).
  { destruct (bool_decide _); rewrite Hvisit; simpl.
    - by exists [timeout_failure s].
    - exists []. by rewrite app_nil_r. }
  destruct Htr as (tr & Hc & Htr).
  exists (tr1 ++ tr ++ tr2).
  split; [|split].
  - rewrite Hrun, Hc2, Hc, Hc1. subst w0. simpl. by rewrite <- !app_assoc.
  - rewrite !Forall_app. split; [|split].
    + eapply Forall_impl; [exact Hall1|].
      intros c (x & Hx & ->). exists x. split; [set_solver|done].
    + rewrite Htr. destruct (bool_decide _); [|done].
      constructor; [|done]. exists s. split; [set_solver|done].
    + eapply Forall_impl; [exact Hall2|].
      intros c (x & Hx & ->). exists x. split; [set_solver|done].
  - intros Hb Ha. rewrite !calls_to_app.
    rewrite (timeout_failures_of_others before s tr1) by done.
    rewrite (timeout_failures_of_others after s tr2) by done.
    rewrite app_nil_r. simpl. rewrite Htr.
    rewrite (Hheap1 s Hb). subst w0. simpl.
    destruct (bool_decide (Socket.GetState (heap w s) = Connecting));
      [|reflexivity].
    unfold calls_to. rewrite filter_cons_True by done. done.
Qed.

End Timeouts.

(** ** Iterating a map in key order *)

Lemma in_key_order_split {V : Type} (m : gmap Z V) (k : Z) (v : V) :
  m !! k = Some v →
  ∃ before after,
    in_key_order m = before ++ (k, v) :: after
    ∧ (k ∉ before.*1) ∧ (k ∉ after.*1).
Proof.
  intros Hk.
  assert (Hperm : in_key_order m ≡ₚ map_to_list m)
    by apply merge_sort_Permutation.
  assert (Hin : (k, v) ∈ in_key_order m).
  { rewrite Hperm. by apply elem_of_map_to_list. }
  apply list_elem_of_split in Hin as (before & after & Hsplit).
  exists before, after. split; [done|].
  assert (Hnodup : NoDup (in_key_order m).*1).
  { rewrite Hperm. apply NoDup_fst_map_to_list. }
  rewrite Hsplit, fmap_app, fmap_cons in Hnodup. simpl in Hnodup.
  apply NoDup_app in Hnodup as (_ & Hdisjoint & Hafter).
  apply NoDup_cons in Hafter as [Hafter _].
  split; [|done].
  intros Hbefore. apply (Hdisjoint k Hbefore). left.
Qed.

Lemma in_key_order_elem {V : Type} (m : gmap Z V) (k : Z) (v : V) :
  (k, v) ∈ in_key_order m ↔ m !! k = Some v.
Proof.
  unfold in_key_order. rewrite merge_sort_Permutation.
  apply elem_of_map_to_list.
Qed.

(** ** Garbage collection (lines 202-233) *)

Section Collection.

Context {S : Type} `{!Socket.SocketClass S}.

Implicit Types (w : World S) (s : SocketPtr).

Lemma DeleteFromEpoll_frame (backend : option Z) s w :
  let w' := (DeleteFromEpoll backend s w).2 in
  pool_type w' = pool_type w
  ∧ _epoll w' = _epoll w
  ∧ _srt_epoll w' = _srt_epoll w
  ∧ _gc_candidates w' = _gc_candidates w
  ∧ _socket_map w' = _socket_map w
  ∧ heap w' = heap w.
Proof.
  unfold DeleteFromEpoll. case_bool_decide; [done|].
  destruct (GetType w), backend as [code|]; simpl;
    repeat case_bool_decide; done.
Qed.

Lemma gc_visit_frame (backend : Z → option Z) w (c : Z * SocketPtr) :
  let w' := gc_visit backend w c in
  pool_type w' = pool_type w
  ∧ _epoll w' = _epoll w
  ∧ _srt_epoll w' = _srt_epoll w
  ∧ (∀ k, k ≠ c.1 → _gc_candidates w' !! k = _gc_candidates w !! k).
Proof.
  destruct c as [key s]. unfold gc_visit.
  destruct (Socket.HasExpiredCommand (heap w s)).
  - simpl.
    match goal with
    | |- context [DeleteFromEpoll ?b ?x ?y] =>
        destruct (DeleteFromEpoll_frame b x y) as (-> & -> & -> & -> & _)
    end.
    simpl. repeat split; try done.
    intros k Hk. by rewrite lookup_delete_ne.
  - destruct (Socket.HasCommand (heap w s)); simpl; repeat split; try done.
    intros k Hk. by rewrite lookup_delete_ne.
Qed.

Lemma gc_loop_frame (backend : Z → option Z) (l : list (Z * SocketPtr)) :
  ∀ w,
    let w' := foldl (gc_visit backend) w l in
    pool_type w' = pool_type w
    ∧ _epoll w' = _epoll w
    ∧ _srt_epoll w' = _srt_epoll w
    ∧ (∀ k, k ∉ l.*1 → _gc_candidates w' !! k = _gc_candidates w !! k).
Proof.
  induction l as [|c l IH]; intros w; simpl; [done|].
  destruct (IH (gc_visit backend w c)) as (-> & -> & -> & Hgc).
  destruct (gc_visit_frame backend w c) as (-> & -> & -> & Hvisit).
  repeat split; try done.
  intros k Hk. apply not_elem_of_cons in Hk as [Hhead Htail].
  by rewrite Hgc, Hvisit.
Qed.

(** C6.  In a garbage-collection pass of a running worker every entry of
    the GC-candidate set is visited once, in key order.  When the socket
    has an expired command at its visit, it gets one [CloseInternal], one
    [DispatchEvents] and one deregistration from the backend, in this
    order, and the entry is erased; when it has no expired command and no
    pending command, the entry is erased and no call is made; otherwise
    the visit changes nothing.  Later visits leave the entry's key
    alone. *)
Theorem GarbageCollection_entry (backend : Z → option Z) w (h : Z) s :
  GetNativeHandle w ≠ InvalidSocket →
  GetType w ≠ Unknown →
  _gc_candidates w !! h = Some s →
  ∃ before after,
    in_key_order (_gc_candidates w) = before ++ (h, s) :: after
    ∧ (h ∉ before.*1) ∧ (h ∉ after.*1)
    ∧ let w1 := foldl (gc_visit backend) w before in
      let w2 := gc_visit backend w1 (h, s) in
      let w' := GarbageCollection backend w in
      w' = foldl (gc_visit backend) w2 after
      ∧ _gc_candidates w1 !! h = Some s
      ∧ _gc_candidates w' !! h = _gc_candidates w2 !! h
      ∧ if Socket.HasExpiredCommand (heap w1 s) then
          let closed := Socket.CloseInternal (heap w1 s) in
          let drained := (Socket.DispatchEvents closed).2 in
          calls w2 =
            calls w1 ++
              [CallCloseInternal s; CallDispatchEvents s;
               deregistration_call w (Socket.GetNativeHandle drained)]
          ∧ heap w2 s = drained
          ∧ (∀ x, x ≠ s → heap w2 x = heap w1 x)
          ∧ _gc_candidates w2 !! h = None
        else if Socket.HasCommand (heap w1 s) then
          w2 = w1
        else
          calls w2 = calls w1
          ∧ heap w2 = heap w1
          ∧ _gc_candidates w2 !! h = None.
Proof.
  intros Hinit Htype Hentry.
  destruct (in_key_order_split _ _ _ Hentry)
    as (before & after & Hsplit & Hbefore & Hafter).
  exists before, after. split; [done|]. split; [done|]. split; [done|].
  intros w1 w2 w'.
  destruct (gc_loop_frame backend before w) as (Ht1 & He1 & Hs1 & Hgc1).
  fold w1 in Ht1, He1, Hs1, Hgc1.
  destruct (gc_loop_frame backend after w2) as (_ & _ & _ & Hgc2).
  assert (Hrun : w' = foldl (gc_visit backend) w2 after).
  { subst w' w2 w1. unfold GarbageCollection. by rewrite Hsplit, foldl_app. }
  split; [done|]. split; [by rewrite Hgc1|].
  split; [by rewrite Hrun, Hgc2|].
  assert (Hinit1 : GetNativeHandle w1 ≠ InvalidSocket).
  { unfold GetNativeHandle, GetType in *. by rewrite Ht1, He1, Hs1. }
  assert (Htype1 : GetType w1 ≠ Unknown).
  { unfold GetType in *. by rewrite Ht1. }
  subst w2. unfold gc_visit.
  destruct (Socket.HasExpiredCommand (heap w1 s)).
  - simpl. rewrite DeleteFromEpoll_unfold by done.
    unfold deregistration_call, GetType. simpl.
    rewrite !fn_lookup_insert, Ht1, He1, Hs1.
    destruct (backend _) as [code|]; [case_bool_decide|]; simpl;
      rewrite <- ?app_assoc, ?fn_lookup_insert; simpl;
      (split; [done|]); (split; [done|]);
      (split; [|apply lookup_delete_eq]);
      intros x Hx; by rewrite !fn_lookup_insert_ne.
  - destruct (Socket.HasCommand (heap w1 s)); simpl; [done|].
    split; [done|]. split; [done|]. apply lookup_delete_eq.
Qed.

End Collection.

(** ** Shutdown (lines 67-99 and 472-489) *)

Section Shutdown.

Context {S : Type} `{!Socket.SocketClass S}.

Implicit Types (w : World S) (s : SocketPtr).

Lemma cleanup_socket_spec w s :
  (if Socket.IsClosable (heap w s)
   then calls (cleanup_socket w s) = calls w ++ final_calls s
   else cleanup_socket w s = w)
  ∧ (∀ y, y ≠ s → heap (cleanup_socket w s) y = heap w y)
  ∧ _stop_epoll_thread (cleanup_socket w s) = _stop_epoll_thread w.
Proof.
  unfold cleanup_socket. destruct (Socket.IsClosable (heap w s)); simpl.
  - rewrite <- !app_assoc. repeat split; try done.
    intros y Hy. by rewrite !fn_lookup_insert_ne.
  - done.
Qed.

Lemma cleanup_loop (l : list SocketPtr) :
  ∀ w, ∃ outcomes,
    calls (foldl cleanup_socket w l) = calls w ++ outcomes
    ∧ Forall (λ c, ∃ x, x ∈ l ∧ call_socket c = Some x) outcomes
    ∧ (∀ y, y ∉ l → heap (foldl cleanup_socket w l) y = heap w y)
    ∧ _stop_epoll_thread (foldl cleanup_socket w l) = _stop_epoll_thread w.
Proof.
  induction l as [|x l IH]; intros w; simpl.
  { exists []. rewrite app_nil_r. repeat split; done. }
  destruct (IH (cleanup_socket w x)) as (tr & Hcalls & Hall & Hheap & Hstop).
  destruct (cleanup_socket_spec w x) as (Hvisit & Hframe & Hstop').
  assert (Hlater : Forall (λ c, ∃ y, y ∈ x :: l ∧ call_socket c = Some y) tr).
  { eapply Forall_impl; [exact Hall|].
    intros c (y & Hy & Hc). exists y. split; [by right|done]. }
  assert (Hother : ∀ y, y ∉ x :: l →
            heap (foldl cleanup_socket (cleanup_socket w x) l) y = heap w y).
  { intros y [Hyx Hyl]%not_elem_of_cons. by rewrite Hheap, Hframe. }
  destruct (Socket.IsClosable (heap w x)).
  - exists (final_calls x ++ tr). split; [|split; [|split]]; try done.
    + by rewrite Hcalls, Hvisit, <- app_assoc.
    + apply Forall_app. split; [|done].
      repeat constructor; exists x; (split; [left|done]).
    + by rewrite Hstop.
  - exists tr. split; [|split; [|split]]; try done.
    + by rewrite Hcalls, Hvisit.
    + by rewrite Hstop.
Qed.

Lemma cleanup_visits_total (l : list (Z * option SocketPtr)) :
  Forall (λ item, item.2 ≠ None) l →
  ∀ w, foldl cleanup_visit (Some w) l
       = Some (foldl cleanup_socket w (omap snd l)).
Proof.
  induction 1 as [|[k [s|]] l Hitem _ IH]; intros w; simpl; [done| |done].
  apply IH.
Qed.

(** A null entry of the handle map makes the clean-up loop dereference
    a null pointer. *)
Lemma cleanup_visits_null (l : list (Z * option SocketPtr)) (k : Z) :
  (k, None) ∈ l → ∀ acc, foldl cleanup_visit acc l = None.
Proof.
  assert (Hnone : ∀ l', foldl cleanup_visit None l' = None).
  { induction l' as [|item l' IH]; simpl; done. }
  induction l as [|item l IH]; intros Hin acc; [by apply elem_of_nil in Hin|].
  apply elem_of_cons in Hin as [<-|Hin]; simpl.
  - destruct acc; simpl; apply Hnone.
  - by apply IH.
Qed.

Lemma closable_calls_to s (b : bool) :
  calls_to s (if b then final_calls s else []) = if b then final_calls s else [].
Proof.
  destruct b; [|reflexivity]. unfold calls_to, final_calls.
  rewrite !filter_cons_True by done. done.
Qed.

Lemma cleanup_calls_of_others (l : list SocketPtr) s outcomes :
  s ∉ l →
  Forall (λ c, ∃ x, x ∈ l ∧ call_socket c = Some x) outcomes →
  calls_to s outcomes = [].
Proof.
  intros Hs Hall. apply calls_to_others.
  eapply Forall_impl; [exact Hall|].
  intros c (x & Hx & ->). intros [= ->]. done.
Qed.

Lemma release_handles_spec w :
  ∃ releases,
    calls (release_handles w) = calls w ++ releases
    ∧ Forall (λ c, call_socket c = None) releases
    ∧ _stop_epoll_thread (release_handles w) = _stop_epoll_thread w
    ∧ _epoll_thread (release_handles w) = _epoll_thread w
    ∧ _socket_map (release_handles w) = _socket_map w
    ∧ _sockets_to_insert (release_handles w) = _sockets_to_insert w
    ∧ _sockets_to_delete (release_handles w) = _sockets_to_delete w
    ∧ _sockets_to_dispatch (release_handles w) = _sockets_to_dispatch w
    ∧ _connection_timed_out_queue (release_handles w)
      = _connection_timed_out_queue w
    ∧ _gc_candidates (release_handles w) = _gc_candidates w.
Proof.
  unfold release_handles.
  destruct (bool_decide (_epoll w = InvalidSocket)) eqn:He; simpl;
    rewrite ?He; simpl;
    destruct (bool_decide (_srt_epoll w = InvalidSocket)) eqn:Hs; simpl.
  - exists []. rewrite app_nil_r. repeat split; done.
  - exists [Sys_srt_close (_srt_epoll w)]. repeat split; try done.
    by repeat constructor.
  - exists [Sys_close (_epoll w)]. repeat split; try done.
    by repeat constructor.
  - exists [Sys_close (_epoll w); Sys_srt_close (_srt_epoll w)].
    rewrite <- app_assoc. repeat split; try done.
    by repeat constructor.
Qed.

(** X18.  On a worker that is not initialized [Uninitialize] answers
    [false] and changes nothing but the log.  On an initialized worker
    whose thread runs and whose handle map holds no null entry, it raises
    the stop flag, joins the thread and answers [true]; the thread's
    clean-up visits every entry of the handle map once, and a socket that
    is closable at its visit gets one [CloseInternal], the state
    [Closed] and one [DispatchEvents], any other none; afterwards the
    handle map, the insert, delete and dispatch queues, the timeout queue
    and the GC set are empty.  A socket held under one key gets these
    calls exactly when it is closable as [Uninitialize] starts. *)
Theorem Uninitialize_drains w :
  (GetNativeHandle w = InvalidSocket →
   Uninitialize w =
     Some (false,
           logs (AssertionFailed "GetNativeHandle() != InvalidSocket")
             (logs (LogError "Epoll is not initialized") w)))
  ∧ (GetNativeHandle w ≠ InvalidSocket →
     _epoll_thread w = true →
     (∀ h, _socket_map w !! h ≠ Some None) →
     ∃ w' outcomes releases,
       Uninitialize w = Some (true, w')
       ∧ _stop_epoll_thread w' = true
       ∧ _epoll_thread w' = false
       ∧ _socket_map w' = ∅
       ∧ _sockets_to_insert w' = []
       ∧ _sockets_to_delete w' = []
       ∧ _sockets_to_dispatch w' = []
       ∧ _connection_timed_out_queue w' = []
       ∧ _gc_candidates w' = ∅
       ∧ calls w' = calls w ++ outcomes ++ releases
       ∧ Forall (λ c, call_socket c = None) releases
       ∧ ∀ h s, _socket_map w !! h = Some (Some s) →
           ∃ before after w1,
             in_key_order (_socket_map w) = before ++ (h, Some s) :: after
             ∧ (h ∉ before.*1) ∧ (h ∉ after.*1)
             ∧ foldl cleanup_visit (Some (at_thread_exit w)) before = Some w1
             ∧ (if Socket.IsClosable (heap w1 s)
                then calls (cleanup_socket w1 s) = calls w1 ++ final_calls s
                else cleanup_socket w1 s = w1)
             ∧ ((∀ h', _socket_map w !! h' = Some (Some s) → h' = h) →
                heap w1 s = heap w s
                ∧ calls_to s outcomes =
                    if Socket.IsClosable (heap w s)
                    then final_calls s else [])).
Proof.
  split.
  { intros Hinvalid. unfold Uninitialize.
    by rewrite bool_decide_eq_true_2. }
  intros Hinit Hthread Hnonnull.
  set (l := in_key_order (_socket_map w)).
  assert (Hitems : Forall (λ item : Z * option SocketPtr, item.2 ≠ None) l).
  { apply Forall_forall. intros [k [x|]] Hin; [done|].
    apply in_key_order_elem in Hin. by destruct (Hnonnull k). }
  set (w0 := at_thread_exit w).
  destruct (cleanup_loop (omap snd l) w0) as (tr & Hcalls & Hall & Hheap & Hstop).
  set (w3 := set_epoll_thread false (foldl cleanup_socket w0 (omap snd l))).
  destruct (release_handles_spec (clear_containers w3))
    as (releases & Hrel & Hsys & Hr1 & Hr2 & Hr3 & Hr4 & Hr5 & Hr6 & Hr7 & Hr8).
  exists (release_handles (clear_containers w3)), tr, releases.
  split.
  { unfold Uninitialize. rewrite bool_decide_eq_false_2 by done.
    simpl. rewrite Hthread. unfold ThreadProc_exit. simpl.
    fold l. fold (at_thread_exit w). fold w0.
    by rewrite (cleanup_visits_total l Hitems w0). }
  rewrite Hr1, Hr2, Hr3, Hr4, Hr5, Hr6, Hr7, Hr8, Hrel.
  subst w3. simpl. rewrite Hstop, Hcalls. subst w0. simpl.
  rewrite <- !app_assoc.
  do 10 (split; [done|]).
  intros h s Hentry.
  destruct (in_key_order_split _ _ _ Hentry)
    as (before & after & Hsplit & Hbefore & Hafter).
  fold l in Hsplit.
  set (w0 := at_thread_exit w) in *.
  set (w1 := foldl cleanup_socket w0 (omap snd before)).
  exists before, after, w1.
  assert (Hparts : Forall (λ item : Z * option SocketPtr, item.2 ≠ None) before).
  { rewrite Hsplit in Hitems. by apply Forall_app in Hitems as [? _]. }
  destruct (cleanup_socket_spec w1 s) as (Hvisit & Hframe & _).
  do 3 (split; [done|]).
  split; [by apply cleanup_visits_total|].
  split; [done|].
  intros Hunique.
  assert (Hnot : ∀ part : list (Z * option SocketPtr),
            part ⊆ l → h ∉ part.*1 → s ∉ omap snd part).
  { intros part Hsub Hh [[k v] [Hin Hv]]%list_elem_of_omap.
    simpl in Hv. subst v.
    assert (k = h) as ->.
    { apply Hunique, in_key_order_elem. fold l. by apply Hsub. }
    apply Hh, list_elem_of_fmap. by exists (h, Some s). }
  assert (Hsb : s ∉ omap snd before).
  { apply Hnot; [|done]. rewrite Hsplit. set_solver. }
  assert (Hsa : s ∉ omap snd after).
  { apply Hnot; [|done]. rewrite Hsplit. set_solver. }
  destruct (cleanup_loop (omap snd before) w0)
    as (trb & Hcb & Hallb & Hheapb & _).
  fold w1 in Hcb, Hheapb.
  destruct (cleanup_loop (omap snd after) (cleanup_socket w1 s))
    as (tra & Hca & Halla & _ & _).
  assert (Hw1 : heap w1 s = heap w s) by (by rewrite Hheapb).
  split; [done|].
  assert (Htr : tr = trb
            ++ (if Socket.IsClosable (heap w1 s) then final_calls s else [])
            ++ tra).
  { apply (app_inv_head (calls w0)). rewrite <- Hcalls.
    rewrite Hsplit, omap_app, foldl_app.
    change (omap snd ((h, Some s) :: after)) with (s :: omap snd after).
    cbn [foldl]. fold w1. rewrite Hca.
    destruct (Socket.IsClosable (heap w1 s)); rewrite Hvisit, Hcb;
      by rewrite <- ?app_assoc. }
  rewrite Htr, !calls_to_app, closable_calls_to.
  rewrite (cleanup_calls_of_others _ _ _ Hsb Hallb).
  rewrite (cleanup_calls_of_others _ _ _ Hsa Halla).
  rewrite app_nil_r. simpl. by rewrite Hw1.
Qed.

End Shutdown.

(** [Uninitialize] on a handle map with a null entry: the clean-up loop
    of the joined thread dereferences the null pointer. *)
Lemma Uninitialize_null_entry {S : Type} `{!Socket.SocketClass S}
    (w : World S) (h : Z) :
  GetNativeHandle w ≠ InvalidSocket →
  _epoll_thread w = true →
  _socket_map w !! h = Some None →
  Uninitialize w = None.
Proof.
  intros Hinit Hthread Hnull. unfold Uninitialize.
  rewrite bool_decide_eq_false_2 by done. simpl. rewrite Hthread.
  unfold ThreadProc_exit. simpl.
  rewrite (cleanup_visits_null _ h); [done|].
  by apply in_key_order_elem.
Qed.

(** C4.  [Uninitialize] does not drain an initialized SRT worker that
    has seen an event for a handle its map does not hold.  A started SRT
    worker takes one turn whose wait reports an event for handle 7: the
    translation leaves a null entry under 7 (line 651) and the loop skips
    the event.  The worker still has its handle and a joinable thread,
    so [Uninitialize] passes its guard and joins the thread, whose
    clean-up dereferences the null entry at line 480: it returns
    nothing, where the event loop (lines 276-281) tests the same pointer
    before it uses it. *)
Lemma Uninitialize_after_absent_srt_event :
  let turn := mkIteration (Started.one_srt_event 7) false (λ _, None) in
  let w := ThreadProc_iteration turn Started.srt in
  GetNativeHandle Started.srt = 4
  ∧ _socket_map Started.srt = ∅
  ∧ GetNativeHandle w = 4
  ∧ _epoll_thread w = true
  ∧ _socket_map w !! 7 = Some None
  ∧ calls w = [Sys_srt_epoll_uwait 4]
  ∧ Uninitialize w = None.
Proof. vm_compute. repeat split. Qed.

(** ** Readiness events (lines 270-433) *)

Section Events.

Context {S : Type} `{!Socket.SocketClass S}.

Implicit Types (w : World S) (s : SocketPtr) (event : epoll_event).

Lemma appends_refl P w : appends P w w.
Proof. exists []. split; [by rewrite app_nil_r | constructor]. Qed.

Lemma appends_trans P w1 w2 w3 :
  appends P w1 w2 → appends P w2 w3 → appends P w1 w3.
Proof.
  intros (t1 & H1 & Hall1) (t2 & H2 & Hall2). exists (t1 ++ t2).
  split; [by rewrite H2, H1, app_assoc | by apply Forall_app].
Qed.

Lemma appends_call P w w' c :
  calls w' = calls w ++ [c] → P c → appends P w w'.
Proof. intros Hc HP. exists [c]. split; [done | by repeat constructor]. Qed.

Lemma appends_same P w w' : calls w' = calls w → appends P w w'.
Proof. intros Hc. exists []. split; [by rewrite app_nil_r | constructor]. Qed.

Lemma appends_impl (P Q : Call → Prop) w w' :
  (∀ c, P c → Q c) → appends P w w' → appends Q w w'.
Proof.
  intros HPQ (t & Hc & Hall). exists t. split; [done|].
  by eapply Forall_impl.
Qed.

(** *** The calls of each stage *)

Lemma resolve_connect_appends P event s w :
  (∀ outcome, P (CallOnConnectedEvent s outcome)) →
  appends P w (resolve_connect event s w).2.
Proof.
  intros HP. unfold resolve_connect.
  repeat (case_match || case_bool_decide); simpl;
    first [apply appends_refl | by eapply appends_call].
Qed.

Lemma on_writable_appends P event s c w :
  (OV_CHECK_FLAG (events event) EPOLLOUT = true →
   OV_CHECK_FLAG (events event) EPOLLHUP = false →
   P (CallDispatchEvents s)) →
  appends P w (on_writable event s c w).2.
Proof.
  intros HP. unfold on_writable, call_DispatchEvents.
  destruct (OV_CHECK_FLAG (events event) EPOLLOUT); [|apply appends_refl].
  destruct (OV_CHECK_FLAG (events event) EPOLLHUP); [apply appends_refl|].
  simpl. destruct (Socket.DispatchEvents (heap w s)) as [[] o]; simpl;
    eapply appends_call; simpl; eauto.
Qed.

Lemma on_readable_appends P event s c w :
  P (CallOnDataAvailableEvent s) →
  appends P w (on_readable event s c w).2.
Proof.
  intros HP. unfold on_readable. case_match; simpl;
    first [apply appends_refl | by eapply appends_call].
Qed.

Lemma on_error_world event s c w : (on_error event s c w).2 = w.
Proof. unfold on_error. by case_match. Qed.

Lemma on_error_world_closure event s c w :
  on_error event s c w = ((on_error event s c w).1, w).
Proof. unfold on_error. by case_match. Qed.

Lemma on_hangup_appends P event s c w :
  P (CallSetEndOfStream s) →
  appends P w (on_hangup event s c w).2.
Proof.
  intros HP. unfold on_hangup. repeat case_match; simpl;
    first [apply appends_refl | by eapply appends_call].
Qed.

Lemma close_socket_appends P s c w :
  P (CallCloseWithState s (new_state c)) →
  appends P w (close_socket s c w).
Proof.
  intros HP. unfold close_socket, EnqueueToDispatchLater.
  repeat case_match; simpl;
    first [apply appends_refl | by apply appends_same
          | by eapply appends_call].
Qed.

Lemma process_flags_appends P event s w :
  (OV_CHECK_FLAG (events event) EPOLLOUT = true →
   OV_CHECK_FLAG (events event) EPOLLHUP = false →
   P (CallDispatchEvents s)) →
  P (CallOnDataAvailableEvent s) →
  P (CallSetEndOfStream s) →
  appends P w (process_flags event s w).2.
Proof.
  intros Hd Hr He. unfold process_flags.
  pose proof (on_writable_appends P event s (mkClosure false Closed) w Hd) as H1.
  destruct (on_writable _ _ _ w) as [c1 w1]. simpl in H1.
  pose proof (on_readable_appends P event s c1 w1 Hr) as H2.
  destruct (on_readable _ _ _ w1) as [c2 w2]. simpl in H2.
  pose proof (on_error_world event s c2 w2) as H3.
  destruct (on_error _ _ _ w2) as [c3 w3]. simpl in H3. subst w3.
  pose proof (on_hangup_appends P event s c3 w2 He) as H4.
  eauto using appends_trans.
Qed.

Lemma process_event_appends event s w :
  data_ptr event = Some s →
  appends (event_call event) w (process_event event s w).
Proof.
  intros Hptr. unfold process_event.
  pose proof (resolve_connect_appends (event_call event) event s w
                (λ _, Hptr)) as H1.
  destruct (resolve_connect event s w) as [failed w1]. simpl in H1.
  case_bool_decide; [done|].
  destruct failed; simpl.
  - eapply appends_trans; [exact H1|]. by apply close_socket_appends.
  - pose proof (process_flags_appends (event_call event) event s w1) as H2.
    destruct (process_flags event s w1) as [c w2]. simpl in H2.
    eapply appends_trans; [exact H1|].
    eapply appends_trans; [by apply H2|]. by apply close_socket_appends.
Qed.

Lemma handle_event_appends w event :
  appends (event_call event) w (handle_event w event).
Proof.
  unfold handle_event. destruct (data_ptr event) as [s|] eqn:Hptr.
  - repeat case_match; simpl.
    + apply appends_refl.
    + by eapply appends_call.
    + eapply (appends_trans _ _ (logs _ w));
        [by apply appends_same | by apply process_event_appends].
    + by apply process_event_appends.
  - by apply appends_same.
Qed.

Lemma resolve_connect_connecting event s w :
  OV_CHECK_FLAG (events event) EPOLLOUT = true →
  Socket.GetState (heap w s) = Connecting →
  ∃ outcome,
    calls (resolve_connect event s w).2
    = calls w ++ [CallOnConnectedEvent s outcome].
Proof.
  intros Hout Hstate. unfold resolve_connect.
  rewrite Hout, bool_decide_eq_true_2 by done.
  repeat (case_match || case_bool_decide); simpl; by eexists.
Qed.

Lemma resolve_connect_settled event s w :
  Socket.GetState (heap w s) ≠ Connecting →
  resolve_connect event s w = (false, w).
Proof.
  intros Hstate. unfold resolve_connect.
  rewrite (bool_decide_eq_false_2 _ Hstate). by case_match.
Qed.

Lemma on_writable_dispatch event s c w :
  OV_CHECK_FLAG (events event) EPOLLOUT = true →
  OV_CHECK_FLAG (events event) EPOLLHUP = false →
  calls (on_writable event s c w).2 = calls w ++ [CallDispatchEvents s].
Proof.
  intros Hout Hhup. unfold on_writable, call_DispatchEvents.
  rewrite Hout, Hhup. simpl.
  by destruct (Socket.DispatchEvents (heap w s)) as [[] o].
Qed.

Lemma process_flags_dispatch event s w :
  OV_CHECK_FLAG (events event) EPOLLOUT = true →
  OV_CHECK_FLAG (events event) EPOLLHUP = false →
  ∃ later,
    calls (process_flags event s w).2 = calls w ++ CallDispatchEvents s :: later.
Proof.
  intros Hout Hhup. unfold process_flags.
  pose proof (on_writable_dispatch event s (mkClosure false Closed) w Hout Hhup)
    as H1.
  destruct (on_writable _ _ _ w) as [c1 w1]. simpl in H1.
  pose proof (on_readable_appends (λ _, True) event s c1 w1 I) as H2.
  destruct (on_readable _ _ _ w1) as [c2 w2]. simpl in H2.
  pose proof (on_error_world event s c2 w2) as H3.
  destruct (on_error _ _ _ w2) as [c3 w3]. simpl in H3. subst w3.
  pose proof (on_hangup_appends (λ _, True) event s c3 w2 I) as H4.
  destruct (appends_trans _ _ _ _ H2 H4) as (later & Hcalls & _).
  exists later. by rewrite Hcalls, H1, <- app_assoc.
Qed.

Lemma process_event_after_connect event s w :
  appends (λ _, True) (resolve_connect event s w).2 (process_event event s w).
Proof.
  unfold process_event.
  destruct (resolve_connect event s w) as [failed w1]. simpl.
  case_bool_decide; [apply appends_refl|].
  destruct failed; simpl.
  - by apply close_socket_appends.
  - pose proof (process_flags_appends (λ _, True) event s w1
                  (λ _ _, I) I I) as H2.
    destruct (process_flags event s w1) as [c w2]. simpl in H2.
    eapply appends_trans; [exact H2|]. by apply close_socket_appends.
Qed.

Lemma handle_event_swallow w event s :
  data_ptr event = Some s →
  Socket.IsClosable (heap w s) = true →
  Socket.NeedToWaitFirstEpollEvent (heap w s) = true →
  OV_CHECK_FLAG (events event) EPOLLOUT = true →
  handle_event w event =
    invoke s (CallSetFirstEpollEventReceived s)
      Socket.SetFirstEpollEventReceived w.
Proof.
  intros Hptr Hclosable Hfirst Hout. unfold handle_event.
  by rewrite Hptr, Hclosable, Hfirst, Hout.
Qed.

Lemma handle_event_process w event s :
  data_ptr event = Some s →
  Socket.IsClosable (heap w s) = true →
  Socket.NeedToWaitFirstEpollEvent (heap w s) = false →
  handle_event w event = process_event event s w.
Proof.
  intros Hptr Hclosable Hfirst. unfold handle_event.
  by rewrite Hptr, Hclosable, Hfirst.
Qed.

(** C2, as the code has it.  A writable event for a socket that is no
    longer closable is dropped: nothing is marked, nothing runs.  For a
    socket that is closable when its event is handled: while it still
    needs its first epoll event, a writable event only marks the first
    event as received (no connect resolution, no dispatch, no read
    notification, no closure; no container changes); once the first event
    has been received, the event goes through the handling proper, where
    a writable event resolves the connect of a [Connecting] socket, and
    is dispatched on a non-blocking socket that is not [Connecting] when
    no hangup comes with it. *)
Theorem first_writable_event_swallowed w event s :
  data_ptr event = Some s →
  OV_CHECK_FLAG (events event) EPOLLOUT = true →
  let w' := handle_event w event in
  (Socket.IsClosable (heap w s) = false → w' = w)
  ∧ (Socket.IsClosable (heap w s) = true →
     Socket.NeedToWaitFirstEpollEvent (heap w s) = true →
     w' = invoke s (CallSetFirstEpollEventReceived s)
            Socket.SetFirstEpollEventReceived w
     ∧ calls w' = calls w ++ [CallSetFirstEpollEventReceived s]
     ∧ heap w' s = Socket.SetFirstEpollEventReceived (heap w s)
     ∧ _gc_candidates w' = _gc_candidates w
     ∧ _sockets_to_dispatch w' = _sockets_to_dispatch w)
  ∧ (Socket.IsClosable (heap w s) = true →
     Socket.NeedToWaitFirstEpollEvent (heap w s) = false →
     w' = process_event event s w
     ∧ (Socket.GetState (heap w s) = Connecting →
        ∃ outcome later,
          calls w' = calls w ++ CallOnConnectedEvent s outcome :: later)
     ∧ (Socket.GetState (heap w s) ≠ Connecting →
        Socket.GetBlockingMode (heap w s) = NonBlocking →
        OV_CHECK_FLAG (events event) EPOLLHUP = false →
        ∃ later, calls w' = calls w ++ CallDispatchEvents s :: later)).
Proof.
  intros Hptr Hout w'. subst w'. split; [|split].
  - intros Hclosed. unfold handle_event. by rewrite Hptr, Hclosed.
  - intros Hclosable Hfirst.
    rewrite (handle_event_swallow w event s) by done.
    simpl. rewrite fn_lookup_insert. done.
  - intros Hclosable Hfirst.
    rewrite (handle_event_process w event s) by done.
    split; [done|]. split.
    + intros Hstate.
      destruct (resolve_connect_connecting event s w Hout Hstate)
        as (outcome & Hconnect).
      destruct (process_event_after_connect event s w) as (later & Hcalls & _).
      exists outcome, later. by rewrite Hcalls, Hconnect, <- app_assoc.
    + intros Hstate Hmode Hhup. unfold process_event.
      rewrite resolve_connect_settled by done.
      rewrite Hmode, bool_decide_eq_false_2 by done. simpl.
      destruct (process_flags_dispatch event s w Hout Hhup)
        as (later & Hflags).
      destruct (process_flags event s w) as [c w2]. simpl in Hflags.
      destruct (close_socket_appends (λ _, True) s c w2 I)
        as (closing & Hclose & _).
      exists (later ++ closing).
      by rewrite Hclose, Hflags, <- app_assoc.
Qed.

(** *** Dispatch results and the GC-candidate set *)

Lemma on_writable_result event s c w (result : Socket.DispatchResult) (o : S) :
  OV_CHECK_FLAG (events event) EPOLLOUT = true →
  OV_CHECK_FLAG (events event) EPOLLHUP = false →
  Socket.DispatchEvents (heap w s) = (result, o) →
  let dispatched := invoke s (CallDispatchEvents s) (λ _, o) w in
  on_writable event s c w =
    match result with
    | Socket.Dispatched => (c, dispatched)
    | Socket.PartialDispatched =>
        (c,
         set_gc_candidates
           (<[Socket.GetNativeHandle o := s]> (_gc_candidates w)) dispatched)
    | Socket.Error => (mkClosure true Error, dispatched)
    end.
Proof.
  intros Hout Hhup Hresult. unfold on_writable, call_DispatchEvents.
  rewrite Hout, Hhup, Hresult. simpl.
  destruct result; simpl; by rewrite ?fn_lookup_insert.
Qed.

(** C1, as the code has it.  Let [DispatchEvents] on socket [s] answer
    [result].

    On the deferred-dispatch path, [PartialDispatched] puts the socket
    into the GC-candidate set under its native handle; [Dispatched]
    leaves the set as it was; [Error] closes the socket with state
    [Error] and leaves the set as it was.

    On the writable-event path (a writable event without hangup, on the
    flags of lines 357-416), the dispatch has the same effect on the set,
    and [Error] asks for a closure, with state [Error] unless the event
    also carries the peer-hangup flag.  When no closure is asked for
    (no dispatch error, no error flag, no peer hangup) the set stays as
    the dispatch left it.  When a closure is asked for, the entry under
    the socket's handle is erased, the socket is closed with the chosen
    state if it is still closable, and it is queued for a deferred
    dispatch. *)
Theorem dispatch_result_and_gc_set w event s
    (result : Socket.DispatchResult) (o : S) :
  Socket.DispatchEvents (heap w s) = (result, o) →
  let h := Socket.GetNativeHandle o in
  (let w' := dispatch_later w s in
   match result with
   | Socket.PartialDispatched =>
       _gc_candidates w' = <[h := s]> (_gc_candidates w)
       ∧ _gc_candidates w' !! h = Some s
       ∧ calls w' = calls w ++ [CallDispatchEvents s]
   | Socket.Dispatched =>
       _gc_candidates w' = _gc_candidates w
       ∧ calls w' = calls w ++ [CallDispatchEvents s]
   | Socket.Error =>
       _gc_candidates w' = _gc_candidates w
       ∧ calls w' = calls w ++ [CallDispatchEvents s; CallCloseWithState s Error]
   end)
  ∧ (OV_CHECK_FLAG (events event) EPOLLOUT = true →
     OV_CHECK_FLAG (events event) EPOLLHUP = false →
     let flags := process_flags event s w in
     let w' := close_socket s flags.1 flags.2 in
     match result with
     | Socket.PartialDispatched =>
         _gc_candidates flags.2 = <[h := s]> (_gc_candidates w)
     | Socket.Dispatched =>
         _gc_candidates flags.2 = _gc_candidates w
     | Socket.Error =>
         _gc_candidates flags.2 = _gc_candidates w
         ∧ need_to_close flags.1 = true
         ∧ (OV_CHECK_FLAG (events event) EPOLLRDHUP = false →
            new_state flags.1 = Error)
     end
     ∧ (result ≠ Socket.Error →
        OV_CHECK_FLAG (events event) EPOLLERR = false →
        OV_CHECK_FLAG (events event) EPOLLRDHUP = false →
        need_to_close flags.1 = false ∧ w' = flags.2)
     ∧ (need_to_close flags.1 = true →
        _gc_candidates w' =
          delete (Socket.GetNativeHandle (heap flags.2 s))
            (_gc_candidates flags.2)
        ∧ _gc_candidates w' !! Socket.GetNativeHandle (heap flags.2 s) = None
        ∧ _sockets_to_dispatch w' = _sockets_to_dispatch flags.2 ++ [s]
        ∧ calls w' =
            calls flags.2 ++
              (if Socket.IsClosable (heap flags.2 s)
               then [CallCloseWithState s (new_state flags.1)] else []))
     ∧ (Socket.IsClosable (heap w s) = true →
        Socket.NeedToWaitFirstEpollEvent (heap w s) = false →
        Socket.GetState (heap w s) ≠ Connecting →
        Socket.GetBlockingMode (heap w s) = NonBlocking →
        data_ptr event = Some s →
        handle_event w event = w')).
Proof.
  intros Hresult h. split.
  { unfold dispatch_later, call_DispatchEvents. rewrite Hresult. simpl.
    subst h.
    destruct result; simpl; rewrite ?fn_lookup_insert, <- ?app_assoc;
      repeat split; try done.
    apply lookup_insert_eq. }
  intros Hout Hhup flags w'.
  assert (Hflags : flags =
    let '(c1, w1) := on_writable event s (mkClosure false Closed) w in
    let '(c2, w2) := on_readable event s c1 w1 in
    let '(c3, w3) := on_error event s c2 w2 in
    on_hangup event s c3 w3) by done.
  rewrite (on_writable_result event s _ w result o Hout Hhup Hresult) in Hflags.
  split; [|split; [|split]].
  - subst w'. rewrite Hflags. unfold on_readable, on_error, on_hangup.
    rewrite Hhup.
    destruct result; simpl; repeat (case_match; simpl); simplify_eq; done.
  - intros Hok Herr Hrdhup. subst w'. rewrite Hflags.
    unfold on_readable, on_error, on_hangup, close_socket.
    rewrite Hhup, Herr, Hrdhup.
    destruct result; simpl; repeat (case_match; simpl); simplify_eq; done.
  - intros Hclose. subst w'. unfold close_socket, EnqueueToDispatchLater.
    rewrite Hclose. simpl.
    destruct (Socket.IsClosable (heap flags.2 s)); simpl;
      rewrite ?app_nil_r; repeat split; try done; apply lookup_delete_eq.
  - intros Hclosable Hfirst Hstate Hmode Hptr.
    rewrite (handle_event_process w event s) by done.
    unfold process_event. rewrite resolve_connect_settled by done.
    rewrite Hmode, bool_decide_eq_false_2 by done. simpl.
    subst w'. fold flags. by destruct flags.
Qed.

(** *** A writable event that comes with a hangup *)

Lemma resolve_connect_frame event s w :
  _gc_candidates (resolve_connect event s w).2 = _gc_candidates w
  ∧ _sockets_to_dispatch (resolve_connect event s w).2 = _sockets_to_dispatch w.
Proof.
  unfold resolve_connect. by repeat (case_match || case_bool_decide).
Qed.

(** C5, as the code has it.  While an event that carries both the
    writable and the hangup flag is handled, no [DispatchEvents] call is
    made.  When the event reaches the flags (its socket is closable and
    has received its first epoll event, the connect stage asked for no
    closure, the socket is non-blocking) and the socket's state at the
    hangup check is not [Error], the end of the stream is marked, the
    socket's entry is erased from the GC-candidate set, the socket is
    closed with state [Disconnected] if it is still closable, and it is
    queued for a deferred dispatch. *)
Theorem writable_hangup_event w event s :
  data_ptr event = Some s →
  OV_CHECK_FLAG (events event) EPOLLOUT = true →
  OV_CHECK_FLAG (events event) EPOLLHUP = true →
  let w' := handle_event w event in
  (∃ trace,
     calls w' = calls w ++ trace
     ∧ Forall (λ c, ∀ x, c ≠ CallDispatchEvents x) trace)
  ∧ (Socket.IsClosable (heap w s) = true →
     Socket.NeedToWaitFirstEpollEvent (heap w s) = false →
     let connect := resolve_connect event s w in
     let w2 := (on_readable event s (mkClosure false Closed) connect.2).2 in
     let w3 := invoke s (CallSetEndOfStream s) Socket.SetEndOfStream w2 in
     connect.1 = false →
     Socket.GetBlockingMode (heap connect.2 s) = NonBlocking →
     Socket.GetState (heap w2 s) ≠ Error →
     w' = close_socket s (mkClosure true Disconnected) w3
     ∧ _gc_candidates w' =
         delete (Socket.GetNativeHandle (heap w3 s)) (_gc_candidates w)
     ∧ _sockets_to_dispatch w' = _sockets_to_dispatch w ++ [s]
     ∧ calls w' =
         calls w2 ++
           CallSetEndOfStream s ::
           (if Socket.IsClosable (heap w3 s)
            then [CallCloseWithState s Disconnected] else [])).
Proof.
  intros Hptr Hout Hhup w'. split.
  { destruct (handle_event_appends w event) as (trace & Hcalls & Hall).
    exists trace. split; [done|].
    eapply Forall_impl; [exact Hall|].
    intros c Hc x ->. simpl in Hc. destruct Hc as (_ & _ & Hno).
    congruence. }
  intros Hclosable Hfirst connect w2 w3 Hconnect Hmode Hstate.
  assert (Hw' : w' = close_socket s (mkClosure true Disconnected) w3).
  { subst w'. rewrite (handle_event_process w event s) by done.
    unfold process_event. fold connect.
    destruct connect as [failed w1] eqn:Hrc. simpl in *. subst failed.
    rewrite Hmode, bool_decide_eq_false_2 by done. simpl.
    unfold process_flags, on_writable. rewrite Hout, Hhup. simpl.
    fold w2.
    destruct (on_readable event s (mkClosure false Closed) w1)
      as [c2 w2'] eqn:Hread.
    simpl in w2. subst w2.
    rewrite (on_error_world_closure event s c2 w2').
    unfold on_hangup. rewrite Hhup. simpl.
    by rewrite bool_decide_eq_false_2. }
  split; [done|]. rewrite Hw'.
  destruct (resolve_connect_frame event s w) as [Hgc Hqueue].
  fold connect in Hgc, Hqueue.
  assert (Hgc2 : _gc_candidates w2 = _gc_candidates connect.2
                 ∧ _sockets_to_dispatch w2 = _sockets_to_dispatch connect.2).
  { subst w2. unfold on_readable. by case_match. }
  destruct Hgc2 as [Hgc2 Hqueue2].
  unfold close_socket, EnqueueToDispatchLater. subst w3.
  destruct (Socket.IsClosable (heap (invoke _ _ _ w2) s)) eqn:Hstill;
    simpl in Hstill |- *; rewrite Hstill; simpl;
    rewrite ?Hgc2, ?Hgc, ?Hqueue2, ?Hqueue, <- ?app_assoc; done.
Qed.

End Events.

(** C1 fails as stated on the deferred-dispatch path: a socket that is in
    the GC-candidate set stays there when its dispatch answers
    [Dispatched], and also when it answers [Error] (it is then closed with
    state [Error]). *)
Lemma dispatched_keeps_gc_entry :
  let w := Examples.candidate_queued [] in
  let w' := dispatch_deferred w in
  let v := Examples.candidate_queued [Socket.Error] in
  let v' := dispatch_deferred v in
  (Socket.DispatchEvents (heap w 1%positive)).1 = Socket.Dispatched
  ∧ Socket.GetNativeHandle (heap w' 1%positive) = 11
  ∧ _gc_candidates w' !! 11 = Some 1%positive
  ∧ (Socket.DispatchEvents (heap v 1%positive)).1 = Socket.Error
  ∧ calls v' = [CallDispatchEvents 1%positive;
                CallCloseWithState 1%positive Error]
  ∧ Socket.GetNativeHandle (heap v' 1%positive) = 11
  ∧ _gc_candidates v' !! 11 = Some 1%positive.
Proof. vm_compute. repeat split; reflexivity. Qed.

(** C1 at a socket whose deferred dispatch is partial. *)
Lemma dispatch_result_and_gc_set_witness :
  let w := Examples.candidate_queued [Socket.PartialDispatched] in
  _gc_candidates (dispatch_later w 1%positive) !! 11 = Some 1%positive.
Proof.
  intros w.
  pose proof (dispatch_result_and_gc_set w (Examples.writable 1%positive)
                1%positive Socket.PartialDispatched
                (Scripted.sending 11 false []) eq_refl) as [Hlater _].
  destruct Hlater as (_ & Hentry & _). exact Hentry.
Defined.

(** C2 fails as stated for a socket that is no longer closable: its
    writable event is dropped before the first-event check and the socket
    is not marked. *)
Lemma first_event_not_marked_when_closed :
  let w := Examples.closed_before_first_event in
  let w' := handle_event w (Examples.writable 1%positive) in
  Socket.NeedToWaitFirstEpollEvent (heap w 1%positive) = true
  ∧ OV_CHECK_FLAG (events (Examples.writable 1%positive)) EPOLLOUT = true
  ∧ Socket.NeedToWaitFirstEpollEvent (heap w' 1%positive) = true
  ∧ calls w' = [].
Proof. vm_compute. repeat split; reflexivity. Qed.

(** C2 at a socket that has just been registered. *)
Lemma first_writable_event_swallowed_witness :
  let w := Examples.just_registered in
  calls (handle_event w (Examples.writable 1%positive))
  = [CallSetFirstEpollEventReceived 1%positive].
Proof.
  intros w.
  pose proof (first_writable_event_swallowed w (Examples.writable 1%positive)
                1%positive eq_refl eq_refl) as (_ & Hfirst & _).
  destruct (Hfirst eq_refl eq_refl) as (_ & Hcalls & _). exact Hcalls.
Defined.

(** C5 fails as stated for the first event of a socket: a writable event
    with hangup on a non-blocking socket that is not in [Error] state is
    swallowed, and no closure follows. *)
Lemma first_writable_hangup_not_closed :
  let w := Examples.just_registered in
  let w' := handle_event w (Examples.writable_hangup 1%positive) in
  Socket.GetBlockingMode (heap w 1%positive) = NonBlocking
  ∧ Socket.GetState (heap w 1%positive) = Connected
  ∧ calls w' = [CallSetFirstEpollEventReceived 1%positive]
  ∧ Socket.GetState (heap w' 1%positive) = Connected
  ∧ Socket.IsClosable (heap w' 1%positive) = true
  ∧ _sockets_to_dispatch w' = [].
Proof. vm_compute. repeat split; reflexivity. Qed.

(** C5 at a connected socket past its first event. *)
Lemma writable_hangup_event_witness :
  let w := Scripted.tcp_worker in
  calls (handle_event w (Examples.writable_hangup 1%positive))
  = [CallSetEndOfStream 1%positive;
     CallCloseWithState 1%positive Disconnected].
Proof.
  intros w.
  pose proof (writable_hangup_event w (Examples.writable_hangup 1%positive)
                1%positive eq_refl eq_refl eq_refl) as [_ Hclose].
  assert (Hstate : Socket.GetState (heap w 1%positive) ≠ Error)
    by (vm_compute; discriminate).
  destruct (Hclose eq_refl eq_refl eq_refl eq_refl Hstate)
    as (_ & _ & _ & Hcalls).
  exact Hcalls.
Defined.

(** C3 at a queue of two sockets: socket 1 is still connecting, socket 2
    is connected. *)
Lemma CallbackTimedOutConnections_entry_witness :
  let w :=
    set_heap (Scripted.place 1%positive (Scripted.connecting 11)
                (heap Scripted.tcp_worker))
      (set_connection_timed_out_queue [1%positive; 2%positive]
         Scripted.tcp_worker) in
  ∃ outcomes,
    calls (CallbackTimedOutConnections w) = calls w ++ outcomes
    ∧ calls_to 1%positive outcomes = [timeout_failure 1%positive].
Proof.
  intros w.
  destruct (CallbackTimedOutConnections_entry w [] 1%positive [2%positive]
              eq_refl) as (_ & _ & _ & outcomes & Hcalls & _ & Hone).
  exists outcomes. split; [exact Hcalls|].
  rewrite Hone.
  - reflexivity.
  - apply not_elem_of_nil.
  - intros Hin. apply list_elem_of_singleton in Hin. discriminate.
Defined.

(** X18 at a TCP worker that holds socket 1 under handle 11. *)
Lemma Uninitialize_drains_witness :
  let w := set_socket_map {[11 := Some 1%positive]} Scripted.tcp_worker in
  ∃ w' outcomes,
    Uninitialize w = Some (true, w')
    ∧ _socket_map w' = ∅
    ∧ _gc_candidates w' = ∅
    ∧ calls_to 1%positive outcomes = final_calls 1%positive.
Proof.
  intros w.
  destruct (Uninitialize_drains w) as [_ Hdrain].
  destruct Hdrain
    as (w' & outcomes & releases & Hrun & _ & _ & Hmap & _ & _ & _ & _
        & Hgc & _ & _ & Hentries).
  - vm_compute. discriminate.
  - reflexivity.
  - intros h Hh. subst w. simpl in Hh.
    apply lookup_singleton_Some in Hh as [_ Hh]. discriminate.
  - exists w', outcomes. split; [exact Hrun|].
    split; [exact Hmap|]. split; [exact Hgc|].
    destruct (Hentries 11 1%positive eq_refl)
      as (before & after & w1 & _ & _ & _ & _ & _ & Hone).
    destruct Hone as [_ Hone].
    + intros h' Hh'. subst w. simpl in Hh'.
      apply lookup_singleton_Some in Hh' as [Hh' _]. done.
    + exact Hone.
Defined.

(** C6 at a TCP worker whose only candidate, socket 1 under handle 11,
    has an expired command; the deregistration fails with [EBADF]. *)
Lemma GarbageCollection_entry_witness :
  let w :=
    set_heap (Scripted.place 1%positive (Scripted.sending 11 true [])
                (heap Scripted.tcp_worker))
      (set_gc_candidates {[11 := 1%positive]} Scripted.tcp_worker) in
  ∃ before after,
    in_key_order (_gc_candidates w) = before ++ (11, 1%positive) :: after
    ∧ _gc_candidates (GarbageCollection (λ _, Some EBADF) w) !! 11
      = _gc_candidates
          (gc_visit (λ _, Some EBADF)
             (foldl (gc_visit (λ _, Some EBADF)) w before) (11, 1%positive))
        !! 11.
Proof.
  intros w.
  destruct (GarbageCollection_entry (λ _, Some EBADF) w 11 1%positive)
    as (before & after & Hsplit & _ & _ & _ & _ & Hkept & _).
  - vm_compute. discriminate.
  - vm_compute. discriminate.
  - reflexivity.
  - exists before, after. split; [exact Hsplit | exact Hkept].
Defined.

(** * Further properties of the worker *)

(** ** Merging the queues into the handle map (lines 175-200) *)

Section Merging.

Context {S : Type} `{!Socket.SocketClass S}.

Implicit Types (w : World S) (s : SocketPtr).

(** X1.  [MergeSocketList] empties the insert and the delete queue and
    changes nothing but the handle map.  Afterwards a handle named by a
    queued deletion is absent, also when an insertion of the same handle
    was queued; a handle named by queued insertions only maps to the last
    socket queued for it; any other handle keeps its entry. *)
Theorem MergeSocketList_lookup w (h : Z) :
  let w' := MergeSocketList w in
  let handle := λ s, Socket.GetNativeHandle (heap w s) in
  _sockets_to_insert w' = []
  ∧ _sockets_to_delete w' = []
  ∧ heap w' = heap w
  ∧ calls w' = calls w
  ∧ _gc_candidates w' = _gc_candidates w
  ∧ _sockets_to_dispatch w' = _sockets_to_dispatch w
  ∧ _socket_map w' !! h =
      if bool_decide (h ∈ handle <$> _sockets_to_delete w) then None
      else
        match last (filter (λ s, handle s = h) (_sockets_to_insert w)) with
        | Some s => Some (Some s)
        | None => _socket_map w !! h
        end.
Proof.
  intros w' handle. subst w' handle. unfold MergeSocketList. simpl.
  do 6 (split; [done|]).
  by rewrite merge_delete_lookup, merge_insert_lookup.
Qed.

(** X2.  A socket that is registered and deregistered before the next
    merge leaves no entry: after [AddToEpoll] and [DeleteFromEpoll] both
    succeed on an initialized worker, [MergeSocketList] has no entry for
    the socket's handle, and both queues are empty. *)
Theorem register_deregister_merge s w :
  GetNativeHandle w ≠ InvalidSocket →
  GetType w ≠ Unknown →
  let added := AddToEpoll None s w in
  let removed := DeleteFromEpoll None s added.2 in
  let w' := MergeSocketList removed.2 in
  added.1 = true
  ∧ removed.1 = true
  ∧ _socket_map w' !! Socket.GetNativeHandle (heap w s) = None
  ∧ _sockets_to_insert w' = []
  ∧ _sockets_to_delete w' = [].
Proof.
  intros Hinit Htype added removed w'.
  assert (Hadded : added =
    (true,
     set_sockets_to_insert (_sockets_to_insert w ++ [s])
       (record
          (match GetType w with
           | Srt => Sys_srt_epoll_add_usock (_srt_epoll w)
                      (Socket.GetNativeHandle (heap w s))
           | _ => Sys_epoll_ctl_add (_epoll w)
                    (Socket.GetNativeHandle (heap w s))
           end) w))).
  { subst added. unfold AddToEpoll.
    rewrite bool_decide_eq_false_2 by done.
    unfold GetType in *. by destruct (pool_type w). }
  assert (Hinit' : GetNativeHandle added.2 ≠ InvalidSocket)
    by (by rewrite Hadded).
  assert (Htype' : GetType added.2 ≠ Unknown) by (by rewrite Hadded).
  assert (Hremoved : removed.1 = true
            ∧ _sockets_to_delete removed.2 = _sockets_to_delete added.2 ++ [s]
            ∧ heap removed.2 = heap w).
  { subst removed. rewrite DeleteFromEpoll_unfold by done.
    simpl. by rewrite Hadded. }
  destruct Hremoved as (Hok & Hqueue & Hheap).
  split; [by rewrite Hadded|]. split; [done|].
  destruct (MergeSocketList_lookup removed.2
              (Socket.GetNativeHandle (heap w s)))
    as (Hins & Hdel & _ & _ & _ & _ & Hlookup).
  fold w' in Hins, Hdel, Hlookup.
  split; [|done].
  rewrite Hlookup, Hqueue, Hheap, bool_decide_eq_true_2; [done|].
  rewrite fmap_app. apply elem_of_app. right. simpl. left.
Qed.

End Merging.

(** X2 at a TCP worker and socket 1. *)
Lemma register_deregister_merge_witness :
  _socket_map
    (MergeSocketList
       (DeleteFromEpoll None 1%positive
          (AddToEpoll None 1%positive Scripted.tcp_worker).2).2) !! 11
  = None.
Proof.
  destruct (register_deregister_merge 1%positive Scripted.tcp_worker)
    as (_ & _ & Habsent & _).
  - vm_compute. discriminate.
  - vm_compute. discriminate.
  - exact Habsent.
Defined.

(** ** Translating and delivering events (lines 552-695) *)

Section Delivery.

Context {S : Type} `{!Socket.SocketClass S}.

Implicit Types (w : World S) (s : SocketPtr).

(** X3.  [ConvertSrtEventToEpollEvent] carries the readable, writable
    and error bits of the SRT event over to the epoll event one by one,
    sets the hangup bit exactly for the SRT states [SRTS_NONEXIST],
    [SRTS_BROKEN] and [SRTS_CLOSED], and never sets the peer-hangup bit.
    For a handle the map holds, the payload is the map's entry and the
    world is unchanged. *)
Theorem ConvertSrtEventToEpollEvent_flags
    (status : SRT_SOCKSTATUS) (srt_event : SRT_EPOLL_EVENT) w :
  let r := ConvertSrtEventToEpollEvent status srt_event w in
  OV_CHECK_FLAG (events r.1) EPOLLIN
  = OV_CHECK_FLAG (srt_events srt_event) SRT_EPOLL_IN
  ∧ OV_CHECK_FLAG (events r.1) EPOLLOUT
    = OV_CHECK_FLAG (srt_events srt_event) SRT_EPOLL_OUT
  ∧ OV_CHECK_FLAG (events r.1) EPOLLERR
    = OV_CHECK_FLAG (srt_events srt_event) SRT_EPOLL_ERR
  ∧ OV_CHECK_FLAG (events r.1) EPOLLHUP
    = match status with
      | SRTS_NONEXIST | SRTS_BROKEN | SRTS_CLOSED => true
      | _ => false
      end
  ∧ OV_CHECK_FLAG (events r.1) EPOLLRDHUP = false
  ∧ data_ptr r.1 = default None (_socket_map w !! fd srt_event)
  ∧ (is_Some (_socket_map w !! fd srt_event) → r.2 = w).
Proof.
  intros r. subst r. unfold ConvertSrtEventToEpollEvent.
  destruct (_socket_map w !! fd srt_event) as [p|] eqn:Hentry; simpl;
    destruct (OV_CHECK_FLAG (srt_events srt_event) SRT_EPOLL_IN),
      (OV_CHECK_FLAG (srt_events srt_event) SRT_EPOLL_OUT),
      (OV_CHECK_FLAG (srt_events srt_event) SRT_EPOLL_ERR),
      status; simpl;
    repeat split; try reflexivity; intros [? [=]].
Qed.

Lemma ConvertSrtEventToEpollEvent_frame
    (status : SRT_SOCKSTATUS) (srt_event : SRT_EPOLL_EVENT) w :
  ∃ m,
    (ConvertSrtEventToEpollEvent status srt_event w).2 = set_socket_map m w
    ∧ ∀ k, default None (m !! k) = default None (_socket_map w !! k).
Proof.
  unfold ConvertSrtEventToEpollEvent.
  destruct (_socket_map w !! fd srt_event) as [p|] eqn:Hentry; simpl.
  - exists (_socket_map w). split; [by destruct w|done].
  - eexists. split; [done|]. intros k.
    destruct (decide (k = fd srt_event)) as [->|Hk].
    + by rewrite lookup_insert_eq, Hentry.
    + by rewrite lookup_insert_ne.
Qed.

(** The conversion loop changes the event buffer and the handle map
    only, and keeps the buffer's length. *)
Lemma convert_srt_events_frame (status : Z → SRT_SOCKSTATUS)
    (records : list SRT_EPOLL_EVENT) :
  ∀ (index : nat) w,
    ∃ m buffer,
      convert_srt_events status index records w
      = set_epoll_events buffer (set_socket_map m w)
      ∧ length buffer = length (_epoll_events w)
      ∧ ∀ k, default None (m !! k) = default None (_socket_map w !! k).
Proof.
  induction records as [|r records IH]; intros index w; simpl.
  { exists (_socket_map w), (_epoll_events w). by destruct w. }
  destruct (ConvertSrtEventToEpollEvent_frame (status (fd r)) r w)
    as (m1 & Hw1 & Hm1).
  destruct (ConvertSrtEventToEpollEvent (status (fd r)) r w) as [event w1].
  simpl in Hw1. subst w1.
  destruct (IH (Datatypes.S index)
              (set_epoll_events
                 (<[index := event]> (_epoll_events (set_socket_map m1 w)))
                 (set_socket_map m1 w)))
    as (m & buffer & -> & Hlen & Hm).
  exists m, buffer. simpl in *. split; [done|]. split.
  - by rewrite Hlen, length_insert.
  - intros k. by rewrite Hm, Hm1.
Qed.

(** X4.  [EpollWait] answers -1 exactly on a worker that is not
    initialized, without touching the last event count.  On an
    initialized worker its answer is never negative and is stored as the
    last event count: it is the count of the wait when that is not
    negative and the type is supported, and zero otherwise.  The failure
    message is written exactly when the type is unknown or the wait
    failed other than by [EINTR] on the epoll backend. *)
Theorem EpollWait_answer (o : WaitOutcome) w :
  let r := EpollWait o w in
  let failed :=
    bool_decide
      (GetType w = Unknown
       ∨ (wait_count o < 0
          ∧ (GetType w = Srt ∨ wait_error o ≠ EINTR))) in
  (r.1 = -1 ↔ GetNativeHandle w = InvalidSocket)
  ∧ (GetNativeHandle w = InvalidSocket →
     _last_epoll_event_count r.2 = _last_epoll_event_count w)
  ∧ (GetNativeHandle w ≠ InvalidSocket →
     0 ≤ r.1
     ∧ _last_epoll_event_count r.2 = r.1
     ∧ r.1 =
         (if bool_decide (GetType w ≠ Unknown ∧ 0 ≤ wait_count o)
          then wait_count o else 0)
     ∧ if failed
       then last (log r.2) = Some (LogError "Could not wait for epoll")
       else log r.2 = log w).
Proof.
  intros r failed. subst r failed. unfold EpollWait.
  case_bool_decide as Hinit; simpl.
  { split; [done|]. split; [done|]. done. }
  split; [split; [|done]|].
  { unfold GetType.
    destruct (pool_type w); simpl;
      repeat (case_bool_decide; simpl); intros ?; lia. }
  split; [done|]. intros _.
  unfold GetType. unfold EINTR in *.
  destruct (pool_type w); simpl;
    repeat (case_bool_decide; simpl);
    repeat split; try done; try lia;
    try (by rewrite last_snoc);
    try (exfalso;
         match goal with
         | Hf : ¬ (_ ∨ _) |- _ =>
             apply Hf; right; split;
             [lia | first [by left | right; congruence]]
         | Hf : ¬ (_ ∧ _) |- _ => apply Hf; split; [done | lia]
         | Ht : _ ∨ _ |- _ =>
             destruct Ht as [Ht|[Hneg [Ht|Ht]]];
             first [done | lia | congruence]
         end).
  match goal with
  | |- context [convert_srt_events ?st ?i ?l ?v] =>
      destruct (convert_srt_events_frame st l i v) as (m & buffer & -> & _)
  end.
  done.
Qed.

Lemma store_events_app (records : list epoll_event) :
  ∀ (index : nat) (buffer : list epoll_event),
    (index + length records ≤ length buffer)%nat →
    store_events index records buffer
    = take index buffer ++ records ++ drop (index + length records) buffer.
Proof.
  induction records as [|e records IH]; intros index buffer Hfit; simpl.
  { rewrite Nat.add_0_r. by rewrite take_drop. }
  simpl in Hfit. rewrite IH by (rewrite length_insert; lia).
  rewrite (take_S_r _ _ e) by (apply list_lookup_insert_eq; lia).
  rewrite take_insert_ge by lia.
  rewrite drop_insert_lt by lia.
  rewrite <- app_assoc. simpl. by rewrite Nat.add_succ_r.
Qed.

(** X5.  On the epoll backend, when the wait hands back [n > 0] records
    and the buffer has room for them, [EpollWait] answers [n] and the
    first [n] records of the event buffer are the records of the wait;
    the rest of the buffer, the handle map, the sockets and the log are
    unchanged. *)
Theorem EpollWait_delivers_records (o : WaitOutcome) w :
  GetNativeHandle w ≠ InvalidSocket →
  GetType w = Tcp ∨ GetType w = Udp →
  0 < wait_count o →
  let n := Z.to_nat (wait_count o) in
  (n ≤ length (epoll_records o))%nat →
  (n ≤ length (_epoll_events w))%nat →
  let r := EpollWait o w in
  r.1 = wait_count o
  ∧ take n (_epoll_events r.2) = take n (epoll_records o)
  ∧ drop n (_epoll_events r.2) = drop n (_epoll_events w)
  ∧ length (_epoll_events r.2) = length (_epoll_events w)
  ∧ _socket_map r.2 = _socket_map w
  ∧ heap r.2 = heap w
  ∧ log r.2 = log w.
Proof.
  intros Hinit Htype Hcount n Hrecords Hbuffer r. subst r.
  unfold EpollWait. rewrite bool_decide_eq_false_2 by done.
  assert (Hlen : length (take n (epoll_records o)) = n)
    by (by apply length_take_le).
  assert (Hstore :
    store_events 0 (take n (epoll_records o)) (_epoll_events w)
    = take n (epoll_records o) ++ drop n (_epoll_events w)).
  { rewrite store_events_app by (rewrite Hlen; simpl; lia).
    by rewrite Hlen. }
  destruct Htype as [Htype|Htype]; rewrite Htype; simpl;
    rewrite (bool_decide_eq_false_2 (wait_count o = 0)) by lia;
    rewrite (bool_decide_eq_true_2 (0 < wait_count o)) by done;
    simpl; fold n; rewrite Hstore;
    rewrite take_app_length', drop_app_length' by done;
    repeat split; try done;
    by rewrite length_app, Hlen, length_drop, Nat.add_comm, Nat.sub_add.
Qed.

(** The epoll event that stands for an SRT record, given the entry of
    the handle map for the record's handle. *)
Lemma ConvertSrtEventToEpollEvent_payload
    (status : SRT_SOCKSTATUS) (srt_event : SRT_EPOLL_EVENT) w :
  data_ptr (ConvertSrtEventToEpollEvent status srt_event w).1
  = default None (_socket_map w !! fd srt_event).
Proof.
  unfold ConvertSrtEventToEpollEvent.
  by destruct (_socket_map w !! fd srt_event).
Qed.

Lemma ConvertSrtEventToEpollEvent_event
    (status : SRT_SOCKSTATUS) (srt_event : SRT_EPOLL_EVENT) w (v : World S) :
  default None (_socket_map w !! fd srt_event)
  = default None (_socket_map v !! fd srt_event) →
  (ConvertSrtEventToEpollEvent status srt_event w).1
  = (ConvertSrtEventToEpollEvent status srt_event v).1.
Proof.
  unfold ConvertSrtEventToEpollEvent. intros Hentry.
  destruct (_socket_map w !! fd srt_event),
    (_socket_map v !! fd srt_event); simpl in *; by subst.
Qed.

Lemma convert_srt_events_below (status : Z → SRT_SOCKSTATUS)
    (records : list SRT_EPOLL_EVENT) (index : nat) :
  ∀ (j : nat) w,
    (index < j)%nat →
    _epoll_events (convert_srt_events status j records w) !! index
    = _epoll_events w !! index.
Proof.
  induction records as [|r records IH]; intros j w Hj; simpl; [done|].
  destruct (ConvertSrtEventToEpollEvent_frame (status (fd r)) r w)
    as (m & Hw1 & _).
  destruct (ConvertSrtEventToEpollEvent (status (fd r)) r w) as [event w1].
  simpl in Hw1. subst w1.
  rewrite IH by lia. simpl.
  by rewrite list_lookup_insert_ne by lia.
Qed.

Lemma convert_srt_events_lookup (status : Z → SRT_SOCKSTATUS)
    (records : list SRT_EPOLL_EVENT) :
  ∀ (index : nat) w (i : nat) (r : SRT_EPOLL_EVENT),
    (index + length records ≤ length (_epoll_events w))%nat →
    records !! i = Some r →
    _epoll_events (convert_srt_events status index records w)
      !! (index + i)%nat
    = Some (ConvertSrtEventToEpollEvent (status (fd r)) r w).1.
Proof.
  induction records as [|r0 records IH]; intros index w i r Hfit Hr;
    [done|].
  simpl in Hfit |- *.
  destruct (ConvertSrtEventToEpollEvent_frame (status (fd r0)) r0 w)
    as (m1 & Hw1 & Hm1).
  destruct (ConvertSrtEventToEpollEvent (status (fd r0)) r0 w)
    as [event w1] eqn:Hconvert.
  simpl in Hw1. subst w1.
  set (w2 := set_epoll_events
               (<[index := event]> (_epoll_events (set_socket_map m1 w)))
               (set_socket_map m1 w)).
  destruct i as [|i].
  - simpl in Hr. injection Hr as ->. rewrite Nat.add_0_r.
    rewrite convert_srt_events_below by lia. subst w2. simpl.
    rewrite list_lookup_insert_eq by lia.
    by rewrite Hconvert.
  - simpl in Hr.
    replace (index + Datatypes.S i)%nat with (Datatypes.S index + i)%nat
      by lia.
    rewrite (IH (Datatypes.S index) w2 i r).
    + f_equal. apply ConvertSrtEventToEpollEvent_event.
      subst w2. simpl. apply Hm1.
    + subst w2. simpl. rewrite length_insert. lia.
    + done.
Qed.

(** X6.  On the SRT backend, when the wait hands back [n > 0] records
    and the buffer has room for them, [EpollWait] first merges the
    queues, and then every one of the first [n] slots of the event buffer
    holds the translation of its record, whose payload is the socket that
    the merged handle map holds for the record's handle (null when it
    holds none); the buffer keeps its length. *)
Theorem EpollWait_converts_srt_records (o : WaitOutcome) w :
  GetNativeHandle w ≠ InvalidSocket →
  GetType w = Srt →
  0 < wait_count o →
  let n := Z.to_nat (wait_count o) in
  (n ≤ length (srt_records o))%nat →
  (n ≤ length (_epoll_events w))%nat →
  let r := EpollWait o w in
  let merged := MergeSocketList w in
  r.1 = wait_count o
  ∧ length (_epoll_events r.2) = length (_epoll_events w)
  ∧ ∀ (i : nat) (record : SRT_EPOLL_EVENT),
      (i < n)%nat →
      srt_records o !! i = Some record →
      ∃ event,
        _epoll_events r.2 !! i = Some event
        ∧ event
          = (ConvertSrtEventToEpollEvent
               (srt_getsockstate o (fd record)) record merged).1
        ∧ data_ptr event
          = default None (_socket_map merged !! fd record).
Proof.
  intros Hinit Htype Hcount n Hrecords Hbuffer r merged. subst r.
  unfold EpollWait. rewrite bool_decide_eq_false_2 by done.
  rewrite Htype. simpl.
  rewrite (bool_decide_eq_false_2 (wait_count o = 0)) by lia.
  rewrite (bool_decide_eq_true_2 (0 < wait_count o)) by done.
  simpl. fold n.
  set (w1 := MergeSocketList (record (Sys_srt_epoll_uwait (_srt_epoll w)) w)).
  assert (Hmap : _socket_map w1 = _socket_map merged
                 ∧ _epoll_events w1 = _epoll_events w) by done.
  destruct Hmap as [Hmap Hevents].
  split; [done|]. split.
  { destruct (convert_srt_events_frame (srt_getsockstate o)
                (take n (srt_records o)) 0%nat w1)
      as (m & buffer & -> & Hlen & _).
    simpl. by rewrite Hlen, Hevents. }
  intros i record Hi Hrecord. eexists. split.
  - apply (convert_srt_events_lookup _ _ 0%nat w1 i record).
    + rewrite length_take_le, Hevents by done. simpl. lia.
    + by rewrite lookup_take_lt.
  - split.
    + apply ConvertSrtEventToEpollEvent_event. by rewrite Hmap.
    + by rewrite ConvertSrtEventToEpollEvent_payload, Hmap.
Qed.

(** X7.  A socket registered on the SRT backend is resolved by the very
    next wait: after a successful [AddToEpoll], an SRT record for the
    socket's handle is translated into an event whose payload is the
    socket, although no merge at the end of a turn has run yet (unless a
    queued deletion names the same handle). *)
Theorem registered_socket_resolved_by_next_wait (o : WaitOutcome) s w
    (i : nat) (srt_record : SRT_EPOLL_EVENT) :
  GetNativeHandle w ≠ InvalidSocket →
  GetType w = Srt →
  Forall
    (λ d, Socket.GetNativeHandle (heap w d) ≠ Socket.GetNativeHandle (heap w s))
    (_sockets_to_delete w) →
  0 < wait_count o →
  (Z.to_nat (wait_count o) ≤ length (srt_records o))%nat →
  (Z.to_nat (wait_count o) ≤ length (_epoll_events w))%nat →
  (i < Z.to_nat (wait_count o))%nat →
  srt_records o !! i = Some srt_record →
  fd srt_record = Socket.GetNativeHandle (heap w s) →
  let registered := AddToEpoll None s w in
  registered.1 = true
  ∧ _socket_map registered.2 = _socket_map w
  ∧ ∃ event,
      _epoll_events (EpollWait o registered.2).2 !! i = Some event
      ∧ data_ptr event = Some s.
Proof.
  intros Hinit Htype Hdelete Hcount Hrecords Hbuffer Hi Hrecord Hfd registered.
  subst registered. unfold AddToEpoll.
  rewrite bool_decide_eq_false_2 by done. rewrite Htype. simpl.
  split; [done|]. split; [done|].
  set (w1 := set_sockets_to_insert (_sockets_to_insert w ++ [s])
               (record (Sys_srt_epoll_add_usock (_srt_epoll w)
                          (Socket.GetNativeHandle (heap w s))) w)).
  unfold EpollWait.
  rewrite (bool_decide_eq_false_2 (GetNativeHandle w1 = InvalidSocket))
    by done.
  replace (GetType w1) with Srt by (by rewrite <- Htype).
  simpl.
  rewrite (bool_decide_eq_false_2 (wait_count o = 0)) by lia.
  rewrite (bool_decide_eq_true_2 (0 < wait_count o)) by done.
  simpl.
  set (w2 := MergeSocketList (record (Sys_srt_epoll_uwait (_srt_epoll w)) w1)).
  assert (Hmerged : _socket_map w2 !! fd srt_record = Some (Some s)).
  { subst w2 w1. unfold MergeSocketList. simpl. rewrite Hfd.
    rewrite merge_delete_other by done. apply merge_insert_last. }
  eexists. split.
  - apply (convert_srt_events_lookup _ _ 0%nat w2 i srt_record).
    + rewrite length_take_le by done. simpl. lia.
    + by rewrite lookup_take_lt.
  - by rewrite ConvertSrtEventToEpollEvent_payload, Hmerged.
Qed.

End Delivery.

(** X5 at a started TCP worker: one writable event for socket 1. *)
Lemma EpollWait_delivers_records_witness :
  let o := Started.one_event (Examples.writable 1%positive) in
  take 1 (_epoll_events (EpollWait o Started.tcp).2)
  = [Examples.writable 1%positive].
Proof.
  intros o.
  destruct (EpollWait_delivers_records o Started.tcp) as (_ & Htake & _).
  - vm_compute. discriminate.
  - by left.
  - reflexivity.
  - vm_compute. lia.
  - vm_compute. lia.
  - exact Htake.
Defined.

(** X6 at a started SRT worker that holds socket 1 under handle 11. *)
Lemma EpollWait_converts_srt_records_witness :
  let w := set_socket_map {[11 := Some 1%positive]} Started.srt in
  ∃ event,
    _epoll_events (EpollWait (Started.one_srt_event 11) w).2 !! 0%nat
    = Some event
    ∧ data_ptr event = Some 1%positive.
Proof.
  intros w.
  destruct (EpollWait_converts_srt_records (Started.one_srt_event 11) w)
    as (_ & _ & Hslots).
  - vm_compute. discriminate.
  - reflexivity.
  - reflexivity.
  - vm_compute. lia.
  - vm_compute. lia.
  - destruct (Hslots 0%nat (mk_srt_event 11 SRT_EPOLL_IN))
      as (event & Hslot & _ & Hptr).
    + vm_compute. lia.
    + reflexivity.
    + exists event. split; [exact Hslot | exact Hptr].
Defined.

(** X7 at a started SRT worker: socket 1 is registered and an event for
    its handle 11 arrives with the next wait. *)
Lemma registered_socket_resolved_by_next_wait_witness :
  ∃ event,
    _epoll_events
      (EpollWait (Started.one_srt_event 11)
         (AddToEpoll None 1%positive Started.srt).2).2 !! 0%nat
    = Some event
    ∧ data_ptr event = Some 1%positive.
Proof.
  destruct (registered_socket_resolved_by_next_wait
              (Started.one_srt_event 11) 1%positive Started.srt 0%nat
              (mk_srt_event 11 SRT_EPOLL_IN))
    as (_ & _ & Hevent).
  - vm_compute. discriminate.
  - reflexivity.
  - constructor.
  - reflexivity.
  - vm_compute. lia.
  - vm_compute. lia.
  - vm_compute. lia.
  - reflexivity.
  - reflexivity.
  - exact Hevent.
Defined.

(** ** The footprint of an event (lines 270-433) *)

Section Footprint.

Context {S : Type} `{!Socket.SocketClass S}.

Implicit Types (w : World S) (s : SocketPtr) (event : epoll_event).

Lemma event_frame_refl s w : event_frame s w w.
Proof.
  repeat split; try done; [by right|].
  exists []. by rewrite app_nil_r.
Qed.

Lemma event_frame_trans s w1 w2 w3 :
  event_frame s w1 w2 → event_frame s w2 w3 → event_frame s w1 w3.
Proof.
  intros (Hq1 & Hh1 & Hg1 & a1 & Hd1 & Ha1) (Hq2 & Hh2 & Hg2 & a2 & Hd2 & Ha2).
  split; [by rewrite Hq2|]. split; [|split].
  - intros x Hx. by rewrite Hh2, Hh1.
  - intros k x Hk. destruct (Hg2 k x Hk) as [->|Hk2]; [by left|by apply Hg1].
  - exists (a1 ++ a2). split; [by rewrite Hd2, Hd1, app_assoc|].
    by apply Forall_app.
Qed.

Lemma event_frame_invoke s (c : Call) (method : S → S) w :
  event_frame s w (invoke s c method w).
Proof.
  repeat split; simpl; try done.
  - intros x Hx. by rewrite fn_lookup_insert_ne.
  - by right.
  - exists []. by rewrite app_nil_r.
Qed.

Lemma event_frame_gc_insert s (k : Z) w :
  event_frame s w (set_gc_candidates (<[k := s]> (_gc_candidates w)) w).
Proof.
  repeat split; simpl; try done.
  - intros k' x. destruct (decide (k = k')) as [->|Hk].
    + rewrite lookup_insert_eq. intros [= ->]. by left.
    + rewrite lookup_insert_ne by done. by right.
  - exists []. by rewrite app_nil_r.
Qed.

Lemma event_frame_gc_delete s (k : Z) w :
  event_frame s w (set_gc_candidates (delete k (_gc_candidates w)) w).
Proof.
  repeat split; simpl; try done.
  - intros k' x Hx. right. by apply lookup_delete_Some in Hx as [_ Hx].
  - exists []. by rewrite app_nil_r.
Qed.

Lemma event_frame_enqueue s w : event_frame s w (EnqueueToDispatchLater s w).
Proof.
  repeat split; simpl; try done; [by right|].
  exists [s]. split; [done|]. by repeat constructor.
Qed.

Lemma event_frame_logs s (e : LogEntry) w : event_frame s w (logs e w).
Proof.
  repeat split; simpl; try done; [by right|].
  exists []. by rewrite app_nil_r.
Qed.

Lemma resolve_connect_footprint event s w :
  event_frame s w (resolve_connect event s w).2.
Proof.
  unfold resolve_connect.
  repeat (case_match || case_bool_decide); simpl;
    first [apply event_frame_refl | apply event_frame_invoke].
Qed.

Lemma on_writable_footprint event s c w :
  event_frame s w (on_writable event s c w).2.
Proof.
  unfold on_writable, call_DispatchEvents.
  destruct (OV_CHECK_FLAG (events event) EPOLLOUT); [|apply event_frame_refl].
  destruct (OV_CHECK_FLAG (events event) EPOLLHUP); [apply event_frame_refl|].
  simpl. destruct (Socket.DispatchEvents (heap w s)) as [[] o]; simpl;
    try apply event_frame_invoke.
  eapply event_frame_trans; [apply event_frame_invoke|].
  apply (event_frame_gc_insert s _ (invoke s (CallDispatchEvents s) (λ _, o) w)).
Qed.

Lemma on_readable_footprint event s c w :
  event_frame s w (on_readable event s c w).2.
Proof.
  unfold on_readable. case_match; simpl;
    first [apply event_frame_refl | apply event_frame_invoke].
Qed.

Lemma on_hangup_footprint event s c w :
  event_frame s w (on_hangup event s c w).2.
Proof.
  unfold on_hangup. repeat case_match; simpl;
    first [apply event_frame_refl | apply event_frame_invoke].
Qed.

Lemma close_socket_footprint s c w : event_frame s w (close_socket s c w).
Proof.
  unfold close_socket. destruct (need_to_close c); [|apply event_frame_refl].
  eapply event_frame_trans; [|apply event_frame_enqueue].
  eapply event_frame_trans;
    [apply (event_frame_gc_delete s (Socket.GetNativeHandle (heap w s)) w)|].
  case_match; [apply event_frame_invoke | apply event_frame_refl].
Qed.

Lemma process_flags_footprint event s w :
  event_frame s w (process_flags event s w).2.
Proof.
  unfold process_flags.
  pose proof (on_writable_footprint event s (mkClosure false Closed) w) as H1.
  destruct (on_writable _ _ _ w) as [c1 w1]. simpl in H1.
  pose proof (on_readable_footprint event s c1 w1) as H2.
  destruct (on_readable _ _ _ w1) as [c2 w2]. simpl in H2.
  pose proof (on_error_world event s c2 w2) as H3.
  destruct (on_error _ _ _ w2) as [c3 w3]. simpl in H3. subst w3.
  pose proof (on_hangup_footprint event s c3 w2) as H4.
  eauto using event_frame_trans.
Qed.

Lemma process_event_footprint event s w :
  event_frame s w (process_event event s w).
Proof.
  unfold process_event.
  pose proof (resolve_connect_footprint event s w) as H1.
  destruct (resolve_connect event s w) as [failed w1]. simpl in H1.
  case_bool_decide; [done|].
  destruct failed; simpl.
  - eapply event_frame_trans; [exact H1|]. apply close_socket_footprint.
  - pose proof (process_flags_footprint event s w1) as H2.
    destruct (process_flags event s w1) as [c w2]. simpl in H2.
    eapply event_frame_trans; [exact H1|].
    eapply event_frame_trans; [exact H2|]. apply close_socket_footprint.
Qed.

Lemma handle_event_footprint w event s :
  data_ptr event = Some s → event_frame s w (handle_event w event).
Proof.
  intros Hptr. unfold handle_event. rewrite Hptr.
  repeat case_match.
  - apply event_frame_refl.
  - apply event_frame_invoke.
  - eapply event_frame_trans; [apply event_frame_logs|].
    apply process_event_footprint.
  - apply process_event_footprint.
Qed.

(** X8.  An event touches its own socket only.  Whatever the event, the
    handle map, the insert, delete and timeout queues, the event buffer
    and the backend are left as they are, every call is made on the
    socket of the payload, no other socket object changes, every entry
    that appears in the GC-candidate set is for that socket, and the
    deferred-dispatch list only grows, by that socket. *)
Theorem handle_event_touches_its_socket w event s :
  data_ptr event = Some s →
  let w' := handle_event w event in
  _socket_map w' = _socket_map w
  ∧ _sockets_to_insert w' = _sockets_to_insert w
  ∧ _sockets_to_delete w' = _sockets_to_delete w
  ∧ _connection_timed_out_queue w' = _connection_timed_out_queue w
  ∧ _epoll_events w' = _epoll_events w
  ∧ backend_of w' = backend_of w
  ∧ (∃ trace,
       calls w' = calls w ++ trace
       ∧ Forall (λ c, call_socket c = Some s) trace)
  ∧ (∀ x, x ≠ s → heap w' x = heap w x)
  ∧ (∀ k x,
       _gc_candidates w' !! k = Some x →
       x = s ∨ _gc_candidates w !! k = Some x)
  ∧ ∃ added,
      _sockets_to_dispatch w' = _sockets_to_dispatch w ++ added
      ∧ Forall (eq s) added.
Proof.
  intros Hptr w'.
  destruct (handle_event_footprint w event s Hptr)
    as (Hquiet & Hheap & Hgc & Hqueue).
  fold w' in Hquiet, Hheap, Hgc, Hqueue.
  unfold quiet_of, registry_of, backend_of in Hquiet.
  injection Hquiet as Htype Hepoll Hsrt Hstop Hthread Hsize
    Hcount Hmap Hinsert Hcallbacks Hevents Hlast Hdelete Htimeout.
  do 5 (split; [done|]).
  split; [unfold backend_of; congruence|].
  split; [|done].
  destruct (handle_event_appends w event) as (trace & Hcalls & Hall).
  exists trace. split; [done|].
  eapply Forall_impl; [exact Hall|].
  intros c Hc. destruct c; simpl in *; try done;
    first [congruence | by rewrite <- Hptr, (proj1 Hc)].
Qed.

End Footprint.

(** ** What an event decides (lines 321-432) *)

Section Outcomes.

Context {S : Type} `{!Socket.SocketClass S}.

Implicit Types (w : World S) (s : SocketPtr) (event : epoll_event).

(** X9.  A writable event on a closable socket that is [Connecting] and
    past its first event resolves the connect from [SO_ERROR]: zero
    delivers [OnConnectedEvent] without an error, a non-zero value
    delivers it with that socket error, and an unreadable option delivers
    it with an unknown error.  A blocking socket is then left alone, also
    after a failure.  A non-blocking socket goes on to the flags after a
    success; after a failure the flags are skipped and the socket is
    closed with state [Closed] (if still closable), its GC entry erased,
    and it is queued for a deferred dispatch. *)
Theorem connect_resolution w event s :
  data_ptr event = Some s →
  Socket.IsClosable (heap w s) = true →
  Socket.NeedToWaitFirstEpollEvent (heap w s) = false →
  OV_CHECK_FLAG (events event) EPOLLOUT = true →
  Socket.GetState (heap w s) = Connecting →
  let w' := handle_event w event in
  let outcome :=
    match Socket.GetSockOpt_SO_ERROR (heap w s) with
    | Some so_error =>
        if bool_decide (so_error = 0) then None
        else Some (SocketErrorOccurred so_error)
    | None => Some (UnknownErrorOccurred (events event))
    end in
  let w1 :=
    invoke s (CallOnConnectedEvent s outcome)
      (Socket.OnConnectedEvent outcome) w in
  if bool_decide (Socket.GetBlockingMode (heap w1 s) = Blocking) then
    w' = w1
  else
    match outcome with
    | None =>
        w' = close_socket s (process_flags event s w1).1
               (process_flags event s w1).2
    | Some _ =>
        w' = close_socket s (mkClosure true Closed) w1
        ∧ calls w' =
            calls w ++
              CallOnConnectedEvent s outcome ::
              (if Socket.IsClosable (heap w1 s)
               then [CallCloseWithState s Closed] else [])
        ∧ _sockets_to_dispatch w' = _sockets_to_dispatch w ++ [s]
        ∧ _gc_candidates w' =
            delete (Socket.GetNativeHandle (heap w1 s)) (_gc_candidates w)
    end.
Proof.
  intros Hptr Hclosable Hfirst Hout Hstate w' outcome w1.
  subst w'. rewrite (handle_event_process w event s) by done.
  unfold process_event.
  assert (Hconnect : resolve_connect event s w
            = (match outcome with None => false | Some _ => true end, w1)).
  { unfold resolve_connect. rewrite Hout, bool_decide_eq_true_2 by done.
    subst w1 outcome.
    destruct (Socket.GetSockOpt_SO_ERROR (heap w s)) as [so_error|];
      [case_bool_decide|]; done. }
  rewrite Hconnect.
  destruct (bool_decide (Socket.GetBlockingMode (heap w1 s) = Blocking));
    [done|].
  destruct outcome as [failure|]; simpl.
  - split; [done|].
    unfold close_socket, EnqueueToDispatchLater. simpl.
    destruct (Socket.IsClosable (heap w1 s)) eqn:Hstill;
      simpl in Hstill |- *; rewrite Hstill; simpl;
      rewrite <- ?app_assoc, ?app_nil_r; done.
  - by destruct (process_flags event s w1).
Qed.

(** X10.  The flags of an event decide the closure as follows.  A
    dispatch is attempted exactly for a writable event without hangup; a
    readable event is notified; a hangup or peer hangup counts when the
    socket's state, read after the dispatch and the notification, is not
    [Error].  A closure is asked for when the dispatch fails, the error
    flag is set, or the hangup counts; its state is [Disconnected] when
    the hangup counts, [Error] otherwise.  The calls are made in the
    order dispatch, data available, end of stream. *)
Theorem process_flags_decision event s w :
  let dispatching :=
    OV_CHECK_FLAG (events event) EPOLLOUT
    && negb (OV_CHECK_FLAG (events event) EPOLLHUP) in
  let dispatch_failed :=
    dispatching
    && match (Socket.DispatchEvents (heap w s)).1 with
       | Socket.Error => true
       | _ => false
       end in
  let w1 := (on_writable event s (mkClosure false Closed) w).2 in
  let w2 := (on_readable event s (mkClosure false Closed) w1).2 in
  let hung_up :=
    (OV_CHECK_FLAG (events event) EPOLLHUP
     || OV_CHECK_FLAG (events event) EPOLLRDHUP)
    && negb (bool_decide (Socket.GetState (heap w2 s) = Error)) in
  let r := process_flags event s w in
  need_to_close r.1
  = dispatch_failed || OV_CHECK_FLAG (events event) EPOLLERR || hung_up
  ∧ new_state r.1
    = (if hung_up then Disconnected
       else if dispatch_failed || OV_CHECK_FLAG (events event) EPOLLERR
            then Error else Closed)
  ∧ calls r.2
    = calls w
      ++ (if dispatching then [CallDispatchEvents s] else [])
      ++ (if OV_CHECK_FLAG (events event) EPOLLIN
          then [CallOnDataAvailableEvent s] else [])
      ++ (if hung_up then [CallSetEndOfStream s] else []).
Proof.
  intros dispatching dispatch_failed w1 w2 hung_up r.
  subst dispatching dispatch_failed w1 w2 hung_up r.
  unfold process_flags, on_writable, on_readable, on_error, on_hangup,
    call_DispatchEvents.
  destruct (OV_CHECK_FLAG (events event) EPOLLOUT),
    (OV_CHECK_FLAG (events event) EPOLLHUP),
    (OV_CHECK_FLAG (events event) EPOLLIN),
    (OV_CHECK_FLAG (events event) EPOLLERR),
    (OV_CHECK_FLAG (events event) EPOLLRDHUP);
    simpl;
    destruct (Socket.DispatchEvents (heap w s)) as [[] o]; simpl;
    repeat (case_bool_decide; simpl);
    rewrite <- ?app_assoc, ?app_nil_r; done.
Qed.

End Outcomes.

(** ** The deferred dispatch (lines 436-462) *)

Section Deferred.

Context {S : Type} `{!Socket.SocketClass S}.

Implicit Types (w : World S) (s : SocketPtr).

Lemma dispatch_later_spec w s :
  calls (dispatch_later w s) = calls w ++ deferred_calls s (heap w s)
  ∧ (∀ y, y ≠ s → heap (dispatch_later w s) y = heap w y)
  ∧ quiet_of (dispatch_later w s) = quiet_of w
  ∧ _sockets_to_dispatch (dispatch_later w s) = _sockets_to_dispatch w.
Proof.
  unfold dispatch_later, call_DispatchEvents, deferred_calls. simpl.
  destruct (Socket.DispatchEvents (heap w s)) as [[] o]; simpl;
    rewrite <- ?app_assoc; repeat split; try done;
    intros y Hy; by rewrite ?fn_lookup_insert_ne.
Qed.

Lemma deferred_calls_on s (o : S) :
  Forall (λ c, call_socket c = Some s) (deferred_calls s o).
Proof.
  unfold deferred_calls. destruct (Socket.DispatchEvents o).1;
    by repeat constructor.
Qed.

Lemma dispatch_loop (l : list SocketPtr) :
  ∀ w, ∃ outcomes,
    calls (foldl dispatch_later w l) = calls w ++ outcomes
    ∧ Forall (λ c, ∃ x, x ∈ l ∧ call_socket c = Some x) outcomes
    ∧ (∀ y, y ∉ l → heap (foldl dispatch_later w l) y = heap w y)
    ∧ quiet_of (foldl dispatch_later w l) = quiet_of w
    ∧ _sockets_to_dispatch (foldl dispatch_later w l) = _sockets_to_dispatch w.
Proof.
  induction l as [|x l IH]; intros w; simpl.
  { exists []. rewrite app_nil_r. repeat split; done. }
  destruct (IH (dispatch_later w x)) as (tr & Hcalls & Hall & Hheap & Hq & Hd).
  destruct (dispatch_later_spec w x) as (Hvisit & Hframe & Hq' & Hd').
  exists (deferred_calls x (heap w x) ++ tr).
  split; [by rewrite Hcalls, Hvisit, <- app_assoc|].
  split; [|split; [|split]].
  - apply Forall_app. split.
    + eapply Forall_impl; [apply deferred_calls_on|].
      intros c Hc. exists x. split; [left|done].
    + eapply Forall_impl; [exact Hall|].
      intros c (y & Hy & Hc). exists y. split; [by right|done].
  - intros y [Hyx Hyl]%not_elem_of_cons. by rewrite Hheap, Hframe.
  - by rewrite Hq.
  - by rewrite Hd.
Qed.

Lemma calls_of_other_sockets (l : list SocketPtr) s outcomes :
  s ∉ l →
  Forall (λ c, ∃ x, x ∈ l ∧ call_socket c = Some x) outcomes →
  calls_to s outcomes = [].
Proof.
  intros Hs Hall. apply calls_to_others.
  eapply Forall_impl; [exact Hall|].
  intros c (x & Hx & ->). intros [= ->]. done.
Qed.

Lemma calls_to_own s (trace : list Call) :
  Forall (λ c, call_socket c = Some s) trace → calls_to s trace = trace.
Proof.
  induction 1 as [|c trace Hc _ IH]; [done|].
  unfold calls_to in *. rewrite filter_cons_True by done. by rewrite IH.
Qed.

(** X11.  The deferred dispatch takes the whole list, leaves it empty
    and visits its entries in order.  At its visit a socket gets one
    [DispatchEvents], followed by [CloseWithState(Error)] exactly when
    that dispatch fails.  The pass calls no socket outside the list and
    leaves the handle map, the insert and delete queues and the timeout
    queue as they are; a socket listed once gets exactly these calls,
    decided by its object as the pass starts. *)
Theorem dispatch_deferred_entry w before s after :
  _sockets_to_dispatch w = before ++ s :: after →
  let w0 := set_sockets_to_dispatch [] w in
  let w1 := foldl dispatch_later w0 before in
  let w2 := dispatch_later w1 s in
  let w' := dispatch_deferred w in
  w' = foldl dispatch_later w2 after
  ∧ _sockets_to_dispatch w' = []
  ∧ calls w2 = calls w1 ++ deferred_calls s (heap w1 s)
  ∧ quiet_of w' = quiet_of w
  ∧ ∃ outcomes,
      calls w' = calls w ++ outcomes
      ∧ Forall (λ c, ∃ x, x ∈ before ++ s :: after ∧ call_socket c = Some x)
          outcomes
      ∧ (s ∉ before → s ∉ after →
         calls_to s outcomes = deferred_calls s (heap w s)).
Proof.
  intros Hqueue w0 w1 w2 w'.
  assert (Hrun : w' = foldl dispatch_later w2 after).
  { subst w' w2 w1 w0. unfold dispatch_deferred. rewrite Hqueue.
    destruct before; simpl; by rewrite ?foldl_app. }
  destruct (dispatch_loop before w0) as (tr1 & Hc1 & Hall1 & Hheap1 & Hq1 & Hd1).
  fold w1 in Hc1, Hheap1, Hq1, Hd1.
  destruct (dispatch_later_spec w1 s) as (Hvisit & _ & Hqv & Hdv).
  fold w2 in Hvisit, Hqv, Hdv.
  destruct (dispatch_loop after w2) as (tr2 & Hc2 & Hall2 & _ & Hq2 & Hd2).
  split; [done|].
  split; [by rewrite Hrun, Hd2, Hdv, Hd1|].
  split; [done|].
  split; [by rewrite Hrun, Hq2, Hqv, Hq1|].
  exists (tr1 ++ deferred_calls s (heap w1 s) ++ tr2).
  split; [|split].
  - rewrite Hrun, Hc2, Hvisit, Hc1. subst w0. simpl.
    by rewrite <- !app_assoc.
  - rewrite !Forall_app. split; [|split].
    + eapply Forall_impl; [exact Hall1|].
      intros c (x & Hx & Hc). exists x. split; [|done].
      apply elem_of_app. by left.
    + eapply Forall_impl; [apply deferred_calls_on|].
      intros c Hc. exists s. split; [|done].
      apply elem_of_app. right. left.
    + eapply Forall_impl; [exact Hall2|].
      intros c (x & Hx & Hc). exists x. split; [|done].
      apply elem_of_app. right. by right.
  - intros Hb Ha. rewrite !calls_to_app.
    rewrite (calls_of_other_sockets before s tr1) by done.
    rewrite (calls_of_other_sockets after s tr2) by done.
    rewrite app_nil_r. simpl.
    rewrite calls_to_own by apply deferred_calls_on.
    rewrite (Hheap1 s Hb). by subst w0.
Qed.

End Deferred.

(** ** What a garbage-collection pass leaves alone (lines 202-233) *)

Section Sweeping.

Context {S : Type} `{!Socket.SocketClass S}.

Implicit Types (w : World S) (s : SocketPtr).

Lemma gc_visit_sweep (backend : Z → option Z) w (key : Z) s :
  let w' := gc_visit backend w (key, s) in
  _gc_candidates w' ⊆ _gc_candidates w
  ∧ registry_of w' = registry_of w
  ∧ backend_of w' = backend_of w
  ∧ _sockets_to_dispatch w' = _sockets_to_dispatch w
  ∧ _connection_timed_out_queue w' = _connection_timed_out_queue w
  ∧ (∀ x, x ≠ s → heap w' x = heap w x)
  ∧ (_sockets_to_delete w' = _sockets_to_delete w
     ∨ _sockets_to_delete w' = _sockets_to_delete w ++ [s]).
Proof.
  unfold gc_visit.
  destruct (Socket.HasExpiredCommand (heap w s)).
  - unfold DeleteFromEpoll, call_DispatchEvents, GetNativeHandle, GetType.
    simpl.
    match goal with
    | |- context [backend ?h] => destruct (pool_type w), (backend h) as [code|]
    end; simpl;
      repeat (case_bool_decide; simpl);
      (split; [apply delete_subseteq|]);
      do 4 (split; [done|]);
      (split; [intros x Hx; by rewrite !fn_lookup_insert_ne|]);
      first [by left | by right].
  - destruct (Socket.HasCommand (heap w s)); simpl.
    + repeat split; try done. by left.
    + split; [apply delete_subseteq|]. repeat split; try done. by left.
Qed.

Lemma gc_loop_sweep (backend : Z → option Z) (l : list (Z * SocketPtr)) :
  ∀ w,
    let w' := foldl (gc_visit backend) w l in
    _gc_candidates w' ⊆ _gc_candidates w
    ∧ registry_of w' = registry_of w
    ∧ backend_of w' = backend_of w
    ∧ _sockets_to_dispatch w' = _sockets_to_dispatch w
    ∧ _connection_timed_out_queue w' = _connection_timed_out_queue w
    ∧ (∀ x, x ∉ l.*2 → heap w' x = heap w x)
    ∧ ∃ added,
        _sockets_to_delete w' = _sockets_to_delete w ++ added
        ∧ Forall (λ x, x ∈ l.*2) added.
Proof.
  induction l as [|[key s] l IH]; intros w.
  { simpl. repeat split; try done. exists []. by rewrite app_nil_r. }
  rewrite fmap_cons. cbn [foldl snd]. cbv zeta.
  destruct (IH (gc_visit backend w (key, s)))
    as (Hgc & Hreg & Hback & Hdis & Htime & Hheap & added & Hdel & Hall).
  destruct (gc_visit_sweep backend w key s)
    as (Hgc' & Hreg' & Hback' & Hdis' & Htime' & Hheap' & Hdel').
  split; [by etrans|].
  split; [by rewrite Hreg|]. split; [by rewrite Hback|].
  split; [by rewrite Hdis|]. split; [by rewrite Htime|].
  split.
  { intros x [Hxs Hxl]%not_elem_of_cons. by rewrite Hheap, Hheap'. }
  assert (Hlater : Forall (λ x, x ∈ s :: l.*2) added).
  { eapply Forall_impl; [exact Hall|]. intros x Hx. by right. }
  destruct Hdel' as [Hsame|Hpushed].
  - exists added. by rewrite Hdel, Hsame.
  - exists (s :: added). split.
    + by rewrite Hdel, Hpushed, <- app_assoc.
    + constructor; [left|done].
Qed.

(** X12.  A garbage-collection pass only shrinks the GC-candidate set.
    It leaves the handle map, the insert queue, the deferred-dispatch
    list, the timeout queue, the event buffer and the backend as they
    are; the delete queue only grows, by sockets of the candidate set;
    and the object of a socket that is no candidate is not changed. *)
Theorem GarbageCollection_sweep (backend : Z → option Z) w :
  let w' := GarbageCollection backend w in
  let candidate x := ∃ k, _gc_candidates w !! k = Some x in
  _gc_candidates w' ⊆ _gc_candidates w
  ∧ _socket_map w' = _socket_map w
  ∧ _sockets_to_insert w' = _sockets_to_insert w
  ∧ _sockets_to_dispatch w' = _sockets_to_dispatch w
  ∧ _connection_timed_out_queue w' = _connection_timed_out_queue w
  ∧ _epoll_events w' = _epoll_events w
  ∧ backend_of w' = backend_of w
  ∧ (∃ added,
       _sockets_to_delete w' = _sockets_to_delete w ++ added
       ∧ Forall candidate added)
  ∧ ∀ x, ¬ candidate x → heap w' x = heap w x.
Proof.
  intros w' candidate.
  destruct (gc_loop_sweep backend (in_key_order (_gc_candidates w)) w)
    as (Hgc & Hreg & Hback & Hdis & Htime & Hheap & added & Hdel & Hall).
  fold (GarbageCollection backend w) in Hgc, Hreg, Hback, Hdis, Htime, Hheap, Hdel.
  fold w' in Hgc, Hreg, Hback, Hdis, Htime, Hheap, Hdel.
  assert (Hlisted : ∀ x, x ∈ (in_key_order (_gc_candidates w)).*2 → candidate x).
  { intros x Hx. apply list_elem_of_fmap in Hx as ([k y] & -> & Hin).
    exists k. by apply in_key_order_elem. }
  unfold registry_of in Hreg.
  injection Hreg as Hcount Hmap Hinsert Hcallbacks Hevents Hlast.
  do 7 (split; [done|]).
  split.
  - exists added. split; [done|].
    eapply Forall_impl; [exact Hall|]. exact Hlisted.
  - intros x Hx. apply Hheap. intros Hin. apply Hx. by apply Hlisted.
Qed.

End Sweeping.

(** ** One turn of the thread's loop (lines 258-470) *)

Section Turn.

Context {S : Type} `{!Socket.SocketClass S}.

Implicit Types (w : World S) (s : SocketPtr).

Lemma foldl_preserves {A B C : Type} (f : A → B → A) (part : A → C)
    (l : list B) :
  (∀ a b, part (f a b) = part a) → ∀ a, part (foldl f a l) = part a.
Proof.
  intros Hstep. induction l as [|b l IH]; intros a; simpl; [done|].
  by rewrite IH, Hstep.
Qed.

Lemma store_events_length (records : list epoll_event) :
  ∀ (index : nat) (buffer : list epoll_event),
    length (store_events index records buffer) = length buffer.
Proof.
  induction records as [|e records IH]; intros index buffer; simpl; [done|].
  by rewrite IH, length_insert.
Qed.

(** The wait keeps the backend, the callback queue, the timeout queue,
    the deferred-dispatch list and the GC-candidate set. *)
Lemma EpollWait_keeps (o : WaitOutcome) w :
  let w' := (EpollWait o w).2 in
  backend_of w' = backend_of w
  ∧ _connection_callback_queue w' = _connection_callback_queue w
  ∧ _connection_timed_out_queue w' = _connection_timed_out_queue w
  ∧ _sockets_to_dispatch w' = _sockets_to_dispatch w
  ∧ _gc_candidates w' = _gc_candidates w.
Proof.
  unfold EpollWait. case_bool_decide; [done|].
  unfold GetType.
  destruct (pool_type w) eqn:Htype; simpl;
    repeat (case_bool_decide; simpl); try done.
  - unfold backend_of. simpl. by rewrite store_events_length.
  - unfold backend_of. simpl. by rewrite store_events_length.
  - match goal with
    | |- context [convert_srt_events ?st ?i ?l ?v] =>
        destruct (convert_srt_events_frame st l i v) as (m & buffer & -> & Hlen & _)
    end.
    unfold backend_of. simpl in *. by rewrite Hlen.
Qed.

Lemma timed_out_visit_keeps w s :
  let part w :=
    (backend_of w, _connection_callback_queue w,
     _connection_timed_out_queue w, _sockets_to_dispatch w,
     _gc_candidates w, _sockets_to_insert w, _sockets_to_delete w,
     _socket_map w, _epoll_events w) in
  part (timed_out_visit w s) = part w.
Proof. unfold timed_out_visit. by case_bool_decide. Qed.

Lemma CallbackTimedOutConnections_keeps w :
  let w' := CallbackTimedOutConnections w in
  backend_of w' = backend_of w
  ∧ _connection_callback_queue w' = _connection_callback_queue w
  ∧ _connection_timed_out_queue w' = []
  ∧ _sockets_to_dispatch w' = _sockets_to_dispatch w
  ∧ _gc_candidates w' = _gc_candidates w
  ∧ _sockets_to_insert w' = _sockets_to_insert w
  ∧ _sockets_to_delete w' = _sockets_to_delete w
  ∧ _socket_map w' = _socket_map w
  ∧ _epoll_events w' = _epoll_events w.
Proof.
  pose proof (foldl_preserves timed_out_visit _
                (_connection_timed_out_queue w) timed_out_visit_keeps
                (set_connection_timed_out_queue [] w)) as Hloop.
  fold (CallbackTimedOutConnections w) in Hloop. simpl in Hloop.
  injection Hloop as Htype Hepoll Hsrt Hstop Hthread Hsize Hcallbacks
    Htimeout Hdispatch Hgc Hinsert Hdelete Hmap Hevents.
  intros w'. subst w'.
  split; [unfold backend_of; congruence|].
  repeat split; done.
Qed.

Lemma handle_event_quiet w (event : epoll_event) :
  quiet_of (handle_event w event) = quiet_of w.
Proof.
  destruct (data_ptr event) as [s|] eqn:Hptr.
  - apply (handle_event_footprint w event s Hptr).
  - unfold handle_event. by rewrite Hptr.
Qed.

Lemma dispatch_deferred_quiet w :
  quiet_of (dispatch_deferred w) = quiet_of w
  ∧ _sockets_to_dispatch (dispatch_deferred w) = [].
Proof.
  unfold dispatch_deferred.
  destruct (_sockets_to_dispatch w) as [|s l] eqn:Hlist; [done|].
  destruct (dispatch_loop (s :: l) (set_sockets_to_dispatch [] w))
    as (_ & _ & _ & _ & Hquiet & Hdispatch).
  by rewrite Hquiet, Hdispatch.
Qed.

Lemma quiet_of_parts w w' :
  quiet_of w' = quiet_of w →
  backend_of w' = backend_of w
  ∧ _connection_callback_queue w' = _connection_callback_queue w
  ∧ _connection_timed_out_queue w' = _connection_timed_out_queue w
  ∧ _socket_map w' = _socket_map w
  ∧ _sockets_to_insert w' = _sockets_to_insert w
  ∧ _sockets_to_delete w' = _sockets_to_delete w.
Proof.
  unfold quiet_of, registry_of. intros Hquiet.
  injection Hquiet as Htype Hepoll Hsrt Hstop Hthread Hsize Hcount Hmap
    Hinsert Hcallbacks Hevents Hlast Hdelete Htimeout.
  split; [unfold backend_of; congruence|].
  repeat split; done.
Qed.

(** The part of a turn before the merge keeps the backend and the
    callback queue, empties the deferred-dispatch list, and empties the
    timeout queue unless the wait answered a negative count. *)
Lemma ThreadProc_iteration_keeps (i : Iteration) w :
  let w' := ThreadProc_iteration i w in
  backend_of w' = backend_of w
  ∧ _connection_callback_queue w' = _connection_callback_queue w
  ∧ _connection_timed_out_queue w' =
      (if bool_decide ((EpollWait (wait_outcome i) w).1 < 0)
       then _connection_timed_out_queue w else [])
  ∧ _sockets_to_dispatch w' = []
  ∧ _sockets_to_insert w' = []
  ∧ _sockets_to_delete w' = [].
Proof.
  unfold ThreadProc_iteration.
  destruct (EpollWait_keeps (wait_outcome i) w)
    as (Hback1 & Hcb1 & Hto1 & _).
  destruct (EpollWait (wait_outcome i) w) as [count w1]. simpl in *.
  set (w2 := if bool_decide (count < 0) then _ else _).
  assert (Hw2 : backend_of w2 = backend_of w
                ∧ _connection_callback_queue w2 = _connection_callback_queue w
                ∧ _connection_timed_out_queue w2 =
                    (if bool_decide (count < 0)
                     then _connection_timed_out_queue w else [])).
  { subst w2. case_bool_decide; [done|].
    destruct (CallbackTimedOutConnections_keeps w1)
      as (Hback2 & Hcb2 & Hto2 & _).
    pose proof (foldl_preserves handle_event quiet_of
                  (take (Z.to_nat count) (_epoll_events w1))
                  handle_event_quiet (CallbackTimedOutConnections w1))
      as Hevents.
    apply quiet_of_parts in Hevents as (Hb & Hc & Ht & _).
    by rewrite Hb, Hc, Ht, Hback2, Hcb2, Hto2. }
  clearbody w2. destruct Hw2 as (Hback2 & Hcb2 & Hto2).
  destruct (dispatch_deferred_quiet w2) as [Hquiet3 Hdis3].
  apply quiet_of_parts in Hquiet3 as (Hback3 & Hcb3 & Hto3 & _).
  set (w3 := dispatch_deferred w2) in *.
  set (w4 := if gc_interval_elapsed i then _ else _).
  assert (Hw4 : backend_of w4 = backend_of w3
                ∧ _connection_callback_queue w4 = _connection_callback_queue w3
                ∧ _connection_timed_out_queue w4 = _connection_timed_out_queue w3
                ∧ _sockets_to_dispatch w4 = _sockets_to_dispatch w3).
  { subst w4. destruct (gc_interval_elapsed i); [|done].
    destruct (gc_loop_sweep (deregistration i)
                (in_key_order (_gc_candidates w3)) w3)
      as (_ & Hreg & Hback & Hdis & Hto & _).
    unfold registry_of in Hreg.
    injection Hreg as _ _ _ Hcallbacks _ _.
    done. }
  clearbody w4. destruct Hw4 as (Hback4 & Hcb4 & Hto4 & Hdis4).
  unfold MergeSocketList. simpl.
  split; [|split; [|split; [|split]]]; [|congruence..|done].
  transitivity (backend_of w4); [done|congruence].
Qed.

(** X13.  A turn of the loop ends with an empty insert queue, an empty
    delete queue and an empty deferred-dispatch list; the timeout queue
    is emptied unless the wait answered a negative count, in which case
    it is left as it was.  A turn never changes the worker's type, its
    two epoll handles, the stop flag, the thread flag, the size of the
    event buffer or the callback queue. *)
Theorem ThreadProc_iteration_drains (i : Iteration) w :
  let w' := ThreadProc_iteration i w in
  _sockets_to_insert w' = []
  ∧ _sockets_to_delete w' = []
  ∧ _sockets_to_dispatch w' = []
  ∧ _connection_timed_out_queue w' =
      (if bool_decide ((EpollWait (wait_outcome i) w).1 < 0)
       then _connection_timed_out_queue w else [])
  ∧ pool_type w' = pool_type w
  ∧ _epoll w' = _epoll w
  ∧ _srt_epoll w' = _srt_epoll w
  ∧ _stop_epoll_thread w' = _stop_epoll_thread w
  ∧ _epoll_thread w' = _epoll_thread w
  ∧ length (_epoll_events w') = length (_epoll_events w)
  ∧ _connection_callback_queue w' = _connection_callback_queue w.
Proof.
  intros w'.
  destruct (ThreadProc_iteration_keeps i w)
    as (Hback & Hcallbacks & Htimeout & Hdispatch & Hinsert & Hdelete).
  fold w' in Hback, Hcallbacks, Htimeout, Hdispatch, Hinsert, Hdelete.
  unfold backend_of in Hback.
  injection Hback as Htype Hepoll Hsrt Hstop Hthread Hsize.
  repeat split; done.
Qed.

Lemma ThreadProc_loop_keeps (iterations : list Iteration) :
  ∀ w,
    backend_of (ThreadProc_loop iterations w) = backend_of w
    ∧ (_stop_epoll_thread w = false →
       ThreadProc_loop iterations w
       = foldl (λ w i, ThreadProc_iteration i w) w iterations).
Proof.
  induction iterations as [|i iterations IH]; intros w; simpl; [done|].
  destruct (_stop_epoll_thread w) eqn:Hstop; [done|].
  destruct (IH (ThreadProc_iteration i w)) as [Hback Hrun].
  destruct (ThreadProc_iteration_keeps i w) as (Hturn & _).
  split; [by rewrite Hback|].
  intros _. apply Hrun.
  unfold backend_of in Hturn. injection Hturn as _ _ _ Hflag _ _.
  by rewrite Hflag.
Qed.

(** X14.  The loop never stops by itself: with the stop flag raised it
    takes no turn, and with the flag down it takes every turn it is
    given, since no turn raises the flag.  However many turns it takes,
    the worker's type, its handles, both thread flags and the size of
    the event buffer are the same afterwards. *)
Theorem ThreadProc_loop_turns (iterations : list Iteration) w :
  ThreadProc_loop iterations w =
    (if _stop_epoll_thread w then w
     else foldl (λ w i, ThreadProc_iteration i w) w iterations)
  ∧ backend_of (ThreadProc_loop iterations w) = backend_of w.
Proof.
  destruct (ThreadProc_loop_keeps iterations w) as [Hback Hrun].
  split; [|done].
  destruct (_stop_epoll_thread w) eqn:Hstop.
  - destruct iterations; simpl; by rewrite ?Hstop.
  - by apply Hrun.
Qed.

End Turn.

(** X8 at a started TCP worker: a writable event with hangup for
    socket 1 leaves the object of socket 2 as it is. *)
Lemma handle_event_touches_its_socket_witness :
  heap (handle_event Started.tcp (Examples.writable_hangup 1%positive))
    2%positive
  = heap Started.tcp 2%positive.
Proof.
  destruct (handle_event_touches_its_socket Started.tcp
              (Examples.writable_hangup 1%positive) 1%positive eq_refl)
    as (_ & _ & _ & _ & _ & _ & _ & Hheap & _).
  apply Hheap. discriminate.
Defined.

(** X9 at a started TCP worker whose socket 1 is connecting and whose
    [SO_ERROR] reads 111: the socket is queued for a deferred
    dispatch. *)
Lemma connect_resolution_witness :
  let refused :=
    Scripted.mk 11 Connecting NonBlocking true false false false (Some 111)
      [] false in
  let w :=
    set_heap (Scripted.place 1%positive refused (heap Started.tcp))
      Started.tcp in
  _sockets_to_dispatch (handle_event w (Examples.writable 1%positive))
  = _sockets_to_dispatch w ++ [1%positive].
Proof.
  intros refused w.
  pose proof (connect_resolution w (Examples.writable 1%positive) 1%positive
                eq_refl eq_refl eq_refl eq_refl eq_refl) as Hresolved.
  cbv zeta in Hresolved.
  destruct Hresolved as (_ & _ & Hqueued & _).
  exact Hqueued.
Defined.

(** X11 at a TCP worker whose deferred-dispatch list holds socket 1,
    whose dispatch fails. *)
Lemma dispatch_deferred_entry_witness :
  let w := Examples.candidate_queued [Socket.Error] in
  _sockets_to_dispatch (dispatch_deferred w) = []
  ∧ ∃ outcomes,
      calls (dispatch_deferred w) = calls w ++ outcomes
      ∧ calls_to 1%positive outcomes
        = [CallDispatchEvents 1%positive;
           CallCloseWithState 1%positive Error].
Proof.
  intros w.
  destruct (dispatch_deferred_entry w [] 1%positive [] eq_refl)
    as (_ & Hempty & _ & _ & outcomes & Hcalls & _ & Hown).
  split; [exact Hempty|].
  exists outcomes. split; [exact Hcalls|].
  apply Hown; apply not_elem_of_nil.
Defined.

(** ** The thread from start to exit (lines 252-489) *)

Section Lifetime.

Context {S : Type} `{!Socket.SocketClass S}.

Implicit Types (w : World S) (s : SocketPtr).

Lemma MergeSocketList_no_null w :
  (∀ h, _socket_map w !! h ≠ Some None) →
  ∀ h, _socket_map (MergeSocketList w) !! h ≠ Some None.
Proof.
  intros Hmap h. unfold MergeSocketList. simpl.
  rewrite merge_delete_lookup. case_bool_decide; [done|].
  rewrite merge_insert_lookup. destruct (last _); [done|apply Hmap].
Qed.

Lemma EpollWait_map (o : WaitOutcome) w :
  GetType w ≠ Srt → _socket_map (EpollWait o w).2 = _socket_map w.
Proof.
  unfold EpollWait, GetType. intros Htype.
  case_bool_decide; [done|].
  destruct (pool_type w); simpl; repeat (case_bool_decide; simpl); done.
Qed.

Lemma ThreadProc_iteration_no_null (i : Iteration) w :
  GetType w ≠ Srt →
  (∀ h, _socket_map w !! h ≠ Some None) →
  ∀ h, _socket_map (ThreadProc_iteration i w) !! h ≠ Some None.
Proof.
  intros Htype Hmap. unfold ThreadProc_iteration.
  pose proof (EpollWait_map (wait_outcome i) w Htype) as Hmap1.
  destruct (EpollWait (wait_outcome i) w) as [count w1]. simpl in Hmap1.
  set (w2 := if bool_decide (count < 0) then _ else _).
  assert (Hmap2 : _socket_map w2 = _socket_map w).
  { subst w2. case_bool_decide; [done|].
    destruct (CallbackTimedOutConnections_keeps w1)
      as (_ & _ & _ & _ & _ & _ & _ & Hkept & _).
    pose proof (foldl_preserves handle_event quiet_of
                  (take (Z.to_nat count) (_epoll_events w1))
                  handle_event_quiet (CallbackTimedOutConnections w1))
      as Hevents.
    apply quiet_of_parts in Hevents as (_ & _ & _ & Hm & _).
    by rewrite Hm, Hkept. }
  clearbody w2.
  destruct (dispatch_deferred_quiet w2) as [Hquiet3 _].
  apply quiet_of_parts in Hquiet3 as (_ & _ & _ & Hmap3 & _).
  set (w3 := dispatch_deferred w2) in *.
  set (w4 := if gc_interval_elapsed i then _ else _).
  assert (Hmap4 : _socket_map w4 = _socket_map w3).
  { subst w4. destruct (gc_interval_elapsed i); [|done].
    destruct (gc_loop_sweep (deregistration i)
                (in_key_order (_gc_candidates w3)) w3)
      as (_ & Hreg & _).
    unfold registry_of in Hreg. by injection Hreg as _ Hm _ _ _ _. }
  clearbody w4.
  apply MergeSocketList_no_null. intros h.
  rewrite Hmap4, Hmap3, Hmap2. apply Hmap.
Qed.

Lemma ThreadProc_loop_no_null (iterations : list Iteration) :
  ∀ w,
    GetType w ≠ Srt →
    (∀ h, _socket_map w !! h ≠ Some None) →
    ∀ h, _socket_map (ThreadProc_loop iterations w) !! h ≠ Some None.
Proof.
  induction iterations as [|i iterations IH]; intros w Htype Hmap; simpl;
    [done|].
  destruct (_stop_epoll_thread w); [done|].
  apply IH.
  - destruct (ThreadProc_iteration_keeps i w) as (Hback & _).
    unfold backend_of in Hback. injection Hback as Hkept _ _ _ _ _.
    unfold GetType in *. by rewrite Hkept.
  - by apply ThreadProc_iteration_no_null.
Qed.

Lemma cleanup_socket_keeps w s :
  let part w := (_socket_map w, _connection_callback_queue w) in
  part (cleanup_socket w s) = part w.
Proof. unfold cleanup_socket. by destruct (Socket.IsClosable (heap w s)). Qed.

(** X15.  On a worker that is not of the SRT type no turn of the loop
    puts a null entry into the handle map: when the map holds none as
    the thread starts, it holds none after any number of turns, so the
    clean-up at the thread's exit dereferences no null pointer and the
    thread returns, with the callback queue stopped. *)
Theorem ThreadProc_returns (iterations : list Iteration) w :
  GetType w ≠ Srt →
  (∀ h, _socket_map w !! h ≠ Some None) →
  (∀ h,
     _socket_map
       (ThreadProc_loop iterations
          (set_connection_callback_queue
             (mkDelayQueue true (pending (_connection_callback_queue w))) w))
       !! h ≠ Some None)
  ∧ ∃ w',
      ThreadProc iterations w = Some w'
      ∧ (∀ h, _socket_map w' !! h ≠ Some None)
      ∧ running (_connection_callback_queue w') = false.
Proof.
  intros Htype Hmap.
  set (started :=
         set_connection_callback_queue
           (mkDelayQueue true (pending (_connection_callback_queue w))) w).
  assert (Hloop : ∀ h,
            _socket_map (ThreadProc_loop iterations started) !! h ≠ Some None).
  { by apply ThreadProc_loop_no_null. }
  split; [done|].
  unfold ThreadProc, ThreadProc_exit. fold started.
  set (stopped := set_connection_callback_queue _ _).
  set (left := ThreadProc_loop iterations started) in *.
  rewrite cleanup_visits_total.
  - eexists. split; [done|].
    pose proof (foldl_preserves cleanup_socket _
                  (omap snd (in_key_order (_socket_map left)))
                  cleanup_socket_keeps stopped) as Hkept.
    simpl in Hkept. injection Hkept as Hm Hq.
    split; [|by rewrite Hq].
    intros h. rewrite Hm. apply Hloop.
  - apply Forall_forall. intros [k p] Hin. simpl.
    apply in_key_order_elem in Hin. intros ->. by apply (Hloop k).
Qed.

End Lifetime.

(** X15 at a started TCP worker that holds socket 1 under handle 11,
    for one turn whose wait times out. *)
Lemma ThreadProc_returns_witness :
  let w := set_socket_map {[11 := Some 1%positive]} Started.tcp in
  let turn :=
    mkIteration (mkWaitOutcome 0 0 [] [] (λ _, SRTS_CONNECTED)) true
      (λ _, None) in
  ∃ w', ThreadProc [turn] w = Some w'.
Proof.
  intros w turn.
  destruct (ThreadProc_returns [turn] w) as (_ & w' & Hrun & _).
  - discriminate.
  - intros h Hh. subst w. simpl in Hh.
    apply lookup_singleton_Some in Hh as [_ Hh]. discriminate.
  - exists w'. exact Hrun.
Defined.

(** ** Set-up and tear-down (lines 40-99 and 111-168) *)

Section Lifecycle.

Context {S : Type} `{!Socket.SocketClass S}.

Implicit Types (w : World S) (s : SocketPtr).

(** X16.  [Initialize] succeeds exactly on a worker without a handle
    whose type is supported, whose thread is not joinable and whose
    backend hands out a valid handle.  Then that handle is the worker's
    handle, the stop flag is down, the thread is joinable, the event
    buffer has [EpollMaxEvents] records, nothing is logged, and the last
    call of the set-up names the thread.  When it fails, an error is
    logged, and the worker's handle, both thread flags and the event
    buffer are as before; on a worker that has a handle the backend is
    not called.  With a joinable thread and a valid new handle the
    program terminates. *)
Theorem Initialize_outcome (EpollMaxEvents : nat) (pool_name : string)
    (created : Z) w :
  let ready :=
    GetNativeHandle w = InvalidSocket
    ∧ GetType w ≠ Unknown
    ∧ created ≠ InvalidSocket in
  match Initialize EpollMaxEvents pool_name created w with
  | None => ready ∧ _epoll_thread w = true
  | Some (true, setup, w') =>
      ready
      ∧ _epoll_thread w = false
      ∧ GetNativeHandle w' = created
      ∧ _stop_epoll_thread w' = false
      ∧ _epoll_thread w' = true
      ∧ length (_epoll_events w') = EpollMaxEvents
      ∧ log w' = log w
      ∧ last setup = Some (Sys_pthread_setname_np (thread_name pool_name))
  | Some (false, setup, w') =>
      ¬ ready
      ∧ (∃ message rest, log w' = log w ++ LogError message :: rest)
      ∧ GetNativeHandle w' = GetNativeHandle w
      ∧ _stop_epoll_thread w' = _stop_epoll_thread w
      ∧ _epoll_thread w' = _epoll_thread w
      ∧ _epoll_events w' = _epoll_events w
      ∧ (GetNativeHandle w ≠ InvalidSocket → setup = [])
  end.
Proof.
  intros ready. subst ready.
  unfold Initialize, PrepareEpoll, GetNativeHandle, GetType, SRT_INVALID_SOCK.
  case_bool_decide as Hinit; simpl.
  { split; [tauto|]. split; [|done].
    eexists _, _. by rewrite <- app_assoc. }
  destruct (pool_type w) eqn:Htype; simpl in *;
    repeat (case_bool_decide; simpl);
    try destruct (_epoll_thread w) eqn:Hthread; simpl;
    rewrite ?Htype, ?length_resize, ?last_snoc; simpl;
    repeat split; try done; try tauto; try congruence;
    try (by eexists _, _);
    unfold InvalidSocket in *; congruence.
Qed.

Lemma cleanup_socket_backend w s :
  let part w :=
    (pool_type w, _epoll w, _srt_epoll w, _epoll_thread w) in
  part (cleanup_socket w s) = part w.
Proof. unfold cleanup_socket. by destruct (Socket.IsClosable (heap w s)). Qed.

(** X17.  Set-up and tear-down compose.  After a successful
    [Initialize] on a worker whose handle map holds no null entry,
    [Uninitialize] answers [true], closes the handle that the set-up
    created, with [srt_close] on an SRT worker and [close] otherwise,
    and leaves a worker without a handle and without a joinable thread:
    a second [Uninitialize] answers [false], and a second [Initialize]
    with a valid handle succeeds again. *)
Theorem Initialize_then_Uninitialize (EpollMaxEvents : nat)
    (pool_name : string) (created again : Z) w :
  GetNativeHandle w = InvalidSocket →
  GetType w ≠ Unknown →
  _epoll_thread w = false →
  created ≠ InvalidSocket →
  again ≠ InvalidSocket →
  (∀ h, _socket_map w !! h ≠ Some None) →
  ∃ setup w1 w2,
    Initialize EpollMaxEvents pool_name created w = Some (true, setup, w1)
    ∧ Uninitialize w1 = Some (true, w2)
    ∧ (match GetType w with
       | Srt => Sys_srt_close created
       | _ => Sys_close created
       end) ∈ calls w2
    ∧ GetNativeHandle w2 = InvalidSocket
    ∧ _epoll_thread w2 = false
    ∧ (∃ w3, Uninitialize w2 = Some (false, w3))
    ∧ ∃ setup' w3,
        Initialize EpollMaxEvents pool_name again w2
        = Some (true, setup', w3).
Proof.
  intros Hinit Htype Hthread Hcreated Hagain Hmap.
  assert (Hstart : ∃ setup w1,
            Initialize EpollMaxEvents pool_name created w
            = Some (true, setup, w1)
            ∧ pool_type w1 = pool_type w
            ∧ GetNativeHandle w1 = created
            ∧ _epoll_thread w1 = true
            ∧ _socket_map w1 = _socket_map w
            ∧ (pool_type w = Srt → _epoll w1 = _epoll w)
            ∧ (pool_type w ≠ Srt → _srt_epoll w1 = _srt_epoll w)).
  { unfold Initialize, PrepareEpoll, GetNativeHandle, GetType in *.
    change SRT_INVALID_SOCK with InvalidSocket.
    rewrite bool_decide_eq_false_2 by (intros Hn; by apply Hn).
    destruct (pool_type w) eqn:Hpool; [done|..]; simpl;
      rewrite (bool_decide_eq_true_2 _ Hcreated); simpl;
      rewrite Hthread; do 2 eexists; (split; [reflexivity|]); simpl;
      rewrite ?Hpool; done. }
  destruct Hstart
    as (setup & w1 & Hrun1 & Hpool1 & Hhandle1 & Hthread1 & Hmap1 & Hsrt1
        & Hepoll1).
  exists setup, w1.
  unfold Uninitialize.
  rewrite bool_decide_eq_false_2 by (by rewrite Hhandle1).
  simpl. rewrite Hthread1. unfold ThreadProc_exit. simpl.
  rewrite cleanup_visits_total; cycle 1.
  { apply Forall_forall. intros [k p] Hin. simpl.
    apply in_key_order_elem in Hin. rewrite Hmap1 in Hin.
    intros ->. by apply (Hmap k). }
  simpl.
  match goal with
  | |- context [foldl cleanup_socket ?start ?l] =>
      pose proof (foldl_preserves cleanup_socket _ l cleanup_socket_backend
                    start) as Hkept;
      set (cleaned := foldl cleanup_socket start l) in *
  end.
  simpl in Hkept. injection Hkept as Hpool2 Hepoll2 Hsrt2 _.
  eexists. split; [done|]. split; [done|].
  set (cleared := clear_containers (set_epoll_thread false cleaned)).
  assert (Hcleared : pool_type cleared = pool_type w
                     ∧ _epoll cleared = _epoll w1
                     ∧ _srt_epoll cleared = _srt_epoll w1
                     ∧ _epoll_thread cleared = false).
  { subst cleared. simpl. by rewrite Hpool2, Hepoll2, Hsrt2, Hpool1. }
  clearbody cleared. destruct Hcleared as (Hp & He & Hs & Ht).
  assert (Hreleased :
            (match GetType w with
             | Srt => Sys_srt_close created
             | _ => Sys_close created
             end) ∈ calls (release_handles cleared)
            ∧ pool_type (release_handles cleared) = pool_type w
            ∧ _epoll (release_handles cleared) = InvalidSocket
            ∧ _srt_epoll (release_handles cleared) = InvalidSocket
            ∧ _epoll_thread (release_handles cleared) = false).
  { unfold release_handles, GetNativeHandle, GetType in *.
    destruct (pool_type w) eqn:Hpool; [done|..];
      rewrite Hpool1 in Hhandle1; simpl in Hhandle1;
      repeat (case_bool_decide; simpl in * );
      repeat split; try done; try congruence;
      rewrite ?elem_of_app, ?list_elem_of_singleton;
      first [ exfalso; congruence
            | right; congruence
            | left; right; congruence ]. }
  clearbody cleaned.
  destruct Hreleased as (Hcall & Hp3 & He3 & Hs3 & Ht3).
  split; [done|].
  assert (Hnone : GetNativeHandle (release_handles cleared) = InvalidSocket).
  { unfold GetNativeHandle, GetType. rewrite He3, Hs3.
    by destruct (pool_type (release_handles cleared)). }
  split; [done|]. split; [done|]. split.
  - rewrite bool_decide_eq_true_2 by done. by eexists.
  - unfold Initialize, PrepareEpoll.
    rewrite bool_decide_eq_false_2 by (intros Hn; by apply Hn).
    unfold GetType in *. change SRT_INVALID_SOCK with InvalidSocket.
    rewrite Hp3.
    destruct (pool_type w) eqn:Hpool; [done|..]; simpl;
      rewrite (bool_decide_eq_true_2 _ Hagain); simpl;
      rewrite Ht3; do 2 eexists; reflexivity.
Qed.

End Lifecycle.

(** X17 at a cold TCP worker: set up with handle 3, torn down, and set
    up again with handle 5. *)
Lemma Initialize_then_Uninitialize_witness :
  ∃ setup w1 w2,
    Initialize 4 "Pool 1" 3 (Started.cold Tcp) = Some (true, setup, w1)
    ∧ Uninitialize w1 = Some (true, w2)
    ∧ Sys_close 3 ∈ calls w2.
Proof.
  destruct (Initialize_then_Uninitialize 4 "Pool 1" 3 5 (Started.cold Tcp))
    as (setup & w1 & w2 & Hup & Hdown & Hclose & _).
  - reflexivity.
  - discriminate.
  - reflexivity.
  - discriminate.
  - discriminate.
  - intros h Hh. simpl in Hh. by rewrite lookup_empty in Hh.
  - exists setup, w1, w2. split; [exact Hup|]. split; [exact Hdown|].
    exact Hclose.
Defined.
